(** * The diffusion core of [ddpm.py]

    A shallow embedding of class [Diffusion] (noise schedule, forward noising,
    timestep sampling and reverse sampling) together with the parts of the
    tensor library its methods call.

    Conventions of the model.
    - Tensor elements are real numbers ([R]).  The methods are modelled
      with exact arithmetic.  What depends on rounding, the order and the
      range of the cumulative products, is stated on the constructor in
      floating-point arithmetic: the same operations with the rounding of
      the element type after each of them (section "The constructor in
      floating-point arithmetic"), single precision included.
    - A one-dimensional tensor of shape [(N,)] is a [list R]; the
      [[:, None, None, None]] view of it, of shape [(N,1,1,1)], is the same
      list used as one coefficient per sample.
    - A four-dimensional tensor of shape [(N,C,H,W)] is a list of [N]
      samples, each sample kept flattened, row major, as a list of
      [C*H*W] reals.
    - Exceptions are values of [exn]; a computation that may raise returns
      a [result].
    - The global random generator, the mode flag of the model and the
      [Diffusion] object live in an explicit [world]; every method is a
      function from worlds to results.  A [trace] records, in order, each
      call that draws from the generator and each call on the model.
    - Batch sizes and the image size are natural numbers.  The device, the
      progress bar, the log line and the gradient switch of [sample] do not
      take part in what is computed and are left out. *)

From Stdlib Require Import Reals List ZArith Lia Lra Bool.
Import ListNotations.

Set Implicit Arguments.

(** ** Exceptions and results *)

Inductive exn : Type :=
| IndexError      (* an index outside the bounds of a dimension *)
| RuntimeError    (* raised by the tensor library: bad size, bad range, shapes that do not broadcast *)
| ModelError.     (* anything the model's forward pass raises by itself *)

Inductive result (A : Type) : Type :=
| Ok (a : A)
| Raise (e : exn).

Arguments Ok {A} a.
Arguments Raise {A} e.

Definition rbind {A B} (r : result A) (k : A -> result B) : result B :=
  match r with
  | Ok a => k a
  | Raise e => Raise e
  end.

Fixpoint collect {A} (l : list (result A)) : result (list A) :=
  match l with
  | [] => Ok []
  | r :: rs => rbind r (fun a => rbind (collect rs) (fun l' => Ok (a :: l')))
  end.

(** ** Tensors *)

Definition vec := list R.
Definition tensor := list (list R).

(** Number of elements of each sample; the batch size is its length. *)
Definition shape (x : tensor) : list nat := map (@length R) x.

Fixpoint map2 {A B C} (f : A -> B -> C) (a : list A) (b : list B) : list C :=
  match a, b with
  | u :: a', v :: b' => f u v :: map2 f a' b'
  | _, _ => []
  end.

Fixpoint map3 {A B C D} (f : A -> B -> C -> D)
         (a : list A) (b : list B) (c : list C) : list D :=
  match a, b, c with
  | u :: a', v :: b', w :: c' => f u v w :: map3 f a' b' c'
  | _, _, _ => []
  end.

(** Broadcasting of one dimension: sizes must agree, or one of them is 1. *)
Definition broadcast {A B C} (f : A -> B -> C) (a : list A) (b : list B)
  : result (list C) :=
  if Nat.eqb (length a) (length b) then Ok (map2 f a b)
  else match a, b with
       | [u], _ => Ok (map (f u) b)
       | _, [v] => Ok (map (fun x => f x v) a)
       | _, _ => Raise RuntimeError
       end.

(** [a op b] for two tensors of shape [(N,C,H,W)] and [(M,C',H',W')]: the
    batch dimension broadcasts; inside a sample, kept flattened, the sizes
    agree or one operand has a single element. *)
Definition pointwise (op : R -> R -> R) (a b : tensor) : result tensor :=
  rbind (broadcast (broadcast op) a b) (@collect (list R)).

(** [c op x] for [c] of shape [(N,1,1,1)] and [x] of shape [(M,C,H,W)]. *)
Definition per_sample (op : R -> R -> R) (c : vec) (x : tensor) : result tensor :=
  broadcast (fun ci row => map (op ci) row) c x.

(** [a[t]] for a one-dimensional [a] and a tensor [t] of integer indices:
    an index [i] with [-len <= i < len] selects entry [i] counted from the
    front, or from the end when negative; any other index raises. *)
Definition index_select (a : vec) (t : list Z) : result vec :=
  let len := Z.of_nat (length a) in
  collect (map (fun i : Z =>
                  if ((- len <=? i) && (i <? len))%Z
                  then Ok (nth (Z.to_nat (if (i <? 0)%Z then i + len else i)%Z) a 0%R)
                  else Raise IndexError) t).

(** [torch.linspace(start, end, steps)]: the two-sided formula of the
    library's kernel. *)
Definition linspace_at (start end_ : R) (steps : Z) (idx : Z) : R :=
  if (steps =? 1)%Z then start
  else
    let step := ((end_ - start) / IZR (steps - 1))%R in
    if (idx <? steps / 2)%Z
    then (start + step * IZR idx)%R
    else (end_ - step * IZR (steps - idx - 1))%R.

Definition linspace (start end_ : R) (steps : Z) : result vec :=
  if (steps <? 0)%Z then Raise RuntimeError
  else Ok (map (fun k => linspace_at start end_ steps (Z.of_nat k))
               (seq 0 (Z.to_nat steps))).

(** [torch.cumprod(a, dim=0)], products exact; [cumprod_rnd] below rounds
    them. *)
Fixpoint cumprod_from (acc : R) (a : vec) : vec :=
  match a with
  | [] => []
  | v :: a' => (acc * v)%R :: cumprod_from (acc * v)%R a'
  end.

Definition cumprod (a : vec) : vec := cumprod_from 1%R a.

(** [range(lo, hi)] and [reversed]. *)
Definition range (lo hi : Z) : list Z :=
  map (fun k => (lo + Z.of_nat k)%Z) (seq 0 (Z.to_nat (hi - lo))).

Definition reversed {A} (l : list A) : list A := rev l.

(** [x.clamp(lo, hi)] on one element, and the conversion of a real to
    [torch.uint8]: truncation toward zero, kept on 8 bits. *)
Definition clamp (lo hi v : R) : R := Rmin (Rmax v lo) hi.

Definition truncate (v : R) : Z :=
  if Rle_dec 0 v then Int_part v else (- Int_part (- v))%Z.

Definition to_uint8 (v : R) : Z := (truncate v mod 256)%Z.

(** ** The collaborators: entropy source and model *)

(** The random generator hands out one value at a time; [next_int lo hi]
    is a draw from the half-open range [lo, hi). *)
Class EntropySource : Type := {
  gen : Type;
  next_normal : gen -> R * gen;
  next_int : Z -> Z -> gen -> Z * gen;
  next_int_range : forall lo hi g,
      (lo < hi)%Z -> (lo <= fst (next_int lo hi g) < hi)%Z
}.

(** The noise predictor: its forward pass may depend on the mode flag
    ([true] is training mode) and may raise. *)
Class Predictor : Type := {
  forward : bool -> tensor -> list Z -> result tensor
}.

(** ** The Diffusion object *)

Record Diffusion : Type := {
  noise_steps : Z;
  beta_start : R;
  beta_end : R;
  img_size : nat;
  beta : vec;
  alpha : vec;
  alpha_hat : vec
}.

(** [Diffusion.prepare_noise_schedule]: reads the three fields set just
    before it is called. *)
Definition prepare_noise_schedule (noise_steps : Z) (beta_start beta_end : R)
  : result vec :=
  linspace beta_start beta_end noise_steps.

(** [Diffusion.__init__]; the device is not modelled. *)
Definition Diffusion_init (noise_steps : Z) (beta_start beta_end : R)
           (img_size : nat) : result Diffusion :=
  rbind (prepare_noise_schedule noise_steps beta_start beta_end) (fun beta =>
  let alpha := map (fun b => 1 - b)%R beta in
  let alpha_hat := cumprod alpha in
  Ok {| noise_steps := noise_steps; beta_start := beta_start;
        beta_end := beta_end; img_size := img_size;
        beta := beta; alpha := alpha; alpha_hat := alpha_hat |}).

(** The last two statements of [sample]:
    [x = (x.clamp(-1, 1) + 1) / 2] and [x = (x * 255).type(torch.uint8)]. *)
Definition to_display (x : tensor) : list (list Z) :=
  let x1 := map (map (fun v => (clamp (-1) 1 v + 1) / 2)%R) x in
  map (map (fun v => to_uint8 (v * 255)%R)) x1.

(** The right-hand side of the update in the loop of [sample], line 122. *)
Definition reverse_update (alpha_t alpha_hat_t beta_t : vec)
           (x predicted_noise noise : tensor) : result tensor :=
  let c1 := map (fun a => 1 / sqrt a)%R alpha_t in
  rbind (broadcast Rdiv (map (fun a => 1 - a)%R alpha_t)
                   (map sqrt (map (fun a => 1 - a)%R alpha_hat_t))) (fun c2 =>
  rbind (per_sample Rmult c2 predicted_noise) (fun m =>
  rbind (pointwise Rminus x m) (fun d =>
  rbind (per_sample Rmult c1 d) (fun l =>
  rbind (per_sample Rmult (map sqrt beta_t) noise) (fun r =>
  pointwise Rplus l r))))).

(** The returned expression of [noise_images], line 83. *)
Definition forward_mix (sqrt_alpha_hat sqrt_one_minus_alpha_hat : vec)
           (x eps : tensor) : result tensor :=
  rbind (per_sample Rmult sqrt_alpha_hat x) (fun l =>
  rbind (per_sample Rmult sqrt_one_minus_alpha_hat eps) (fun r =>
  pointwise Rplus l r)).

Definition zeros_like (x : tensor) : tensor :=
  map (map (fun _ : R => 0%R)) x.

(** ** Definitions used to state the properties *)

Open Scope R_scope.

(** What the constructor returns, field by field. *)
Definition built (T : Z) (bs be : R) (size : nat) : Diffusion :=
  let b := map (fun k => linspace_at bs be T (Z.of_nat k)) (seq 0 (Z.to_nat T)) in
  {| noise_steps := T; beta_start := bs; beta_end := be; img_size := size;
     beta := b;
     alpha := map (fun v => 1 - v) b;
     alpha_hat := cumprod (map (fun v => 1 - v) b) |}.


(** [noisy = sqrt(a_hat) * x + sqrt(1 - a_hat) * epsilon], one element. *)
Definition spec_forward (a_hat x eps : R) : R :=
  sqrt a_hat * x + sqrt (1 - a_hat) * eps.


(** Clamp to [-1, 1], map to [0, 1], scale by 255, keep the integer part. *)
Definition spec_pixel (v : R) : Z :=
  Int_part ((Rmin (Rmax v (-1)) 1 + 1) / 2 * 255).

(** ** The constructor in floating-point arithmetic *)

(** The tensors of the source hold binary32 numbers: every arithmetic
    operation returns the rounding of its exact result.  The definitions
    below are those of the constructor with the rounding [rnd] of the
    element type applied to the arguments and after each operation, in the
    order of the source.  [torch.cumprod] keeps its running product in an
    accumulator, of the element type or of a wider one, and stores each
    entry in the element type: [wide] is the rounding of the accumulator.
    With the identity for both roundings these are the definitions
    above. *)
Definition linspace_at_rnd (rnd : R -> R) (start end_ : R) (steps idx : Z) : R :=
  let s := rnd start in
  let e := rnd end_ in
  if (steps =? 1)%Z then s
  else
    let step := rnd (rnd (e - s) / rnd (IZR (steps - 1))) in
    if (idx <? steps / 2)%Z
    then rnd (s + rnd (step * rnd (IZR idx)))
    else rnd (e - rnd (step * rnd (IZR (steps - idx - 1)))).

Definition linspace_rnd (rnd : R -> R) (start end_ : R) (steps : Z)
  : result vec :=
  if (steps <? 0)%Z then Raise RuntimeError
  else Ok (map (fun k => linspace_at_rnd rnd start end_ steps (Z.of_nat k))
               (seq 0 (Z.to_nat steps))).

Fixpoint cumprod_from_rnd (wide rnd : R -> R) (acc : R) (a : vec) : vec :=
  match a with
  | [] => []
  | v :: a' =>
      rnd (wide (acc * v)) :: cumprod_from_rnd wide rnd (wide (acc * v)) a'
  end.

Definition cumprod_rnd (wide rnd : R -> R) (a : vec) : vec :=
  cumprod_from_rnd wide rnd 1 a.

(** [Diffusion.__init__], lines 50 to 58, each operation rounded. *)
Definition Diffusion_init_rnd (wide rnd : R -> R)
           (noise_steps : Z) (beta_start beta_end : R) (img_size : nat)
  : result Diffusion :=
  rbind (linspace_rnd rnd beta_start beta_end noise_steps) (fun beta =>
  let alpha := map (fun b => rnd (1 - b)) beta in
  let alpha_hat := cumprod_rnd wide rnd alpha in
  Ok {| noise_steps := noise_steps; beta_start := beta_start;
        beta_end := beta_end; img_size := img_size;
        beta := beta; alpha := alpha; alpha_hat := alpha_hat |}).

(** The running product of [a[0..i]]: each multiplication rounded to the
    accumulator, the result rounded to the element type. *)
Definition prod_upto_rnd (wide rnd : R -> R) (a : vec) (i : nat) : R :=
  rnd (fold_left (fun acc v => wide (acc * v)) (firstn (S i) a) 1).

(** A rounding function: monotone, the identity on its own results, and
    exact on 0 and 1. *)
Definition rounding (rnd : R -> R) : Prop :=
  (forall x y, x <= y -> rnd x <= rnd y) /\
  (forall x, rnd (rnd x) = rnd x) /\
  rnd 0 = 0 /\ rnd 1 = 1.

(** The accumulator holds every number of the element type. *)
Definition refines (wide rnd : R -> R) : Prop :=
  forall x, wide (rnd x) = rnd x.

(** No rounding at all. *)
Definition exact (x : R) : R := x.

(** *** Binary formats *)

Definition pow2 (e : Z) : R := powerRZ 2 e.

(** The nearest integer, the even one of two that are equally near. *)
Definition rne (x : R) : Z :=
  let f := Int_part x in
  if Rlt_dec (x - IZR f) (1/2) then f
  else if Rlt_dec (1/2) (x - IZR f) then (f + 1)%Z
  else if Z.even f then f else (f + 1)%Z.

(** The exponent [e] with [2^(e-1) <= |x| < 2^e]. *)
Definition mag (x : R) : Z := (Int_part (ln (Rabs x) / ln 2) + 1)%Z.

(** The exponent of the last digit of [x] in a format of [prec] binary
    digits whose least exponent is [emin]. *)
Definition cexp (prec emin : Z) (x : R) : Z := Z.max (mag x - prec) emin.

(** Rounding to nearest, ties to even, in that format; the range of the
    format is not bounded above. *)
Definition binary (prec emin : Z) (x : R) : R :=
  let e := cexp prec emin x in
  IZR (rne (x * pow2 (- e))) * pow2 e.

(** Single precision, the element type of the tensors, and double
    precision. *)
Definition binary32 : R -> R := binary 24 (-149).

Definition binary64 : R -> R := binary 53 (-1074).

(** ** Worlds *)

Inductive event : Type :=
| Randn (sh : list nat)                 (* torch.randn, torch.randn_like *)
| Randint (low high : Z) (size : nat)   (* torch.randint *)
| Eval                                  (* model.eval() *)
| Train                                 (* model.train() *)
| Forward (mode : bool) (x : tensor) (t : list Z).
    (* model(x, t), with the mode flag it ran under *)

Record world `{EntropySource} : Type := {
  self : Diffusion;
  rng : gen;
  training : bool;
  trace : list event
}.

Section Methods.
Context `{ES : EntropySource} `{P : Predictor}.

Definition M (A : Type) : Type := world -> result (A * world).

Definition ret {A} (a : A) : M A := fun w => Ok (a, w).

Definition bind {A B} (m : M A) (k : A -> M B) : M B :=
  fun w => match m w with
           | Ok (a, w') => k a w'
           | Raise e => Raise e
           end.

Definition lift {A} (r : result A) : M A :=
  fun w => match r with
           | Ok a => Ok (a, w)
           | Raise e => Raise e
           end.

Definition get_self : M Diffusion := fun w => Ok (self w, w).

Definition log (e : event) (w : world) : world :=
  {| self := self w; rng := rng w; training := training w;
     trace := trace w ++ [e] |}.

Definition with_rng (g : gen) (w : world) : world :=
  {| self := self w; rng := g; training := training w; trace := trace w |}.

Definition with_training (b : bool) (w : world) : world :=
  {| self := self w; rng := rng w; training := b; trace := trace w |}.

Notation "x <- m ;; k" := (bind m (fun x => k))
  (at level 61, m at next level, right associativity).

(** *** Draws from the generator *)

Fixpoint draw_normals (k : nat) (g : gen) : list R * gen :=
  match k with
  | O => ([], g)
  | S k' => let (v, g1) := next_normal g in
            let (vs, g2) := draw_normals k' g1 in
            (v :: vs, g2)
  end.

Fixpoint draw_samples (sh : list nat) (g : gen) : tensor * gen :=
  match sh with
  | [] => ([], g)
  | k :: sh' => let (row, g1) := draw_normals k g in
                let (rows, g2) := draw_samples sh' g1 in
                (row :: rows, g2)
  end.

Fixpoint draw_ints (lo hi : Z) (k : nat) (g : gen) : list Z * gen :=
  match k with
  | O => ([], g)
  | S k' => let (v, g1) := next_int lo hi g in
            let (vs, g2) := draw_ints lo hi k' g1 in
            (v :: vs, g2)
  end.

Definition randn (sh : list nat) : M tensor :=
  fun w => let (x, g) := draw_samples sh (rng w) in
           Ok (x, log (Randn sh) (with_rng g w)).

Definition randn_like (x : tensor) : M tensor := randn (shape x).

(** [torch.randint(low, high, (size,))] rejects an empty range. *)
Definition randint (low high : Z) (size : nat) : M (list Z) :=
  fun w => if (low <? high)%Z
           then let (t, g) := draw_ints low high size (rng w) in
                Ok (t, log (Randint low high size) (with_rng g w))
           else Raise RuntimeError.

(** *** Calls on the model *)

(** [model.eval()] and [model.train()] set the mode flag; [model(x, t)] runs
    the forward pass under the current flag. *)

Definition model_eval : M unit :=
  fun w => Ok (tt, log Eval (with_training false w)).

Definition model_train : M unit :=
  fun w => Ok (tt, log Train (with_training true w)).

Definition model_call (x : tensor) (t : list Z) : M tensor :=
  fun w => match forward (training w) x t with
           | Ok y => Ok (y, log (Forward (training w) x t) w)
           | Raise e => Raise e
           end.

(** *** Methods of [Diffusion] *)

(** [Diffusion.noise_images], lines 80 to 83: the schedule is indexed first,
    the noise is drawn next, the mix is computed last. *)
Definition noise_images (x : tensor) (t : list Z) : M (tensor * tensor) :=
  d <- get_self ;;
  a1 <- lift (index_select (alpha_hat d) t) ;;
  let sqrt_alpha_hat := map sqrt a1 in
  a2 <- lift (index_select (alpha_hat d) t) ;;
  let sqrt_one_minus_alpha_hat := map sqrt (map (fun a => 1 - a)%R a2) in
  eps <- randn_like x ;;
  noisy <- lift (forward_mix sqrt_alpha_hat sqrt_one_minus_alpha_hat x eps) ;;
  ret (noisy, eps).

(** [Diffusion.sample_timesteps], line 95. *)
Definition sample_timesteps (n : nat) : M (list Z) :=
  d <- get_self ;;
  randint 1 (noise_steps d) n.

(** One iteration of the loop of [sample], lines 113 to 122. *)
Definition sample_step (n : nat) (i : Z) (x : tensor) : M tensor :=
  d <- get_self ;;
  let t := repeat i n in
  predicted_noise <- model_call x t ;;
  alpha_t <- lift (index_select (alpha d) t) ;;
  alpha_hat_t <- lift (index_select (alpha_hat d) t) ;;
  beta_t <- lift (index_select (beta d) t) ;;
  noise <- (if (1 <? i)%Z then randn_like x else ret (zeros_like x)) ;;
  lift (reverse_update alpha_t alpha_hat_t beta_t x predicted_noise noise).

Fixpoint for_each (l : list Z) (body : Z -> tensor -> M tensor) (x : tensor)
  : M tensor :=
  match l with
  | [] => ret x
  | i :: l' => x' <- body i x ;; for_each l' body x'
  end.

(** The loop of [sample], line 112: [for i in reversed(range(1, noise_steps))]. *)
Definition sample_loop (n : nat) (x : tensor) : M tensor :=
  d <- get_self ;;
  for_each (reversed (range 1 (noise_steps d))) (sample_step n) x.

(** [Diffusion.sample], lines 109 to 126. *)
Definition sample (n : nat) : M (list (list Z)) :=
  d <- get_self ;;
  _ <- model_eval ;;
  x0 <- randn (repeat (3 * img_size d * img_size d)%nat n) ;;
  x <- sample_loop n x0 ;;
  _ <- model_train ;;
  ret (to_display x).

(** *** The batch loop of [train] *)

(** Lines 147 and 148 of [train]: the timesteps are drawn for
    [images.shape[0]] samples, then the batch is noised at these timesteps.
    The result is [(t, (x_t, noise))]. *)
Definition training_inputs (images : tensor) : M (list Z * (tensor * tensor)) :=
  t <- sample_timesteps (length images) ;;
  r <- noise_images images t ;;
  ret (t, r).

(** Lines 147 to 149 of [train]: the inputs above, then
    [predicted_noise = model(x_t, t)].  The result is the pair handed to the
    loss, [(noise, predicted_noise)]. *)
Definition training_forward (images : tensor) : M (tensor * tensor) :=
  ti <- training_inputs images ;;
  predicted_noise <- model_call (fst (snd ti)) (fst ti) ;;
  ret (snd (snd ti), predicted_noise).

(** *** Definitions used to state the runs *)

(** The same world around another object. *)
Definition with_self (d : Diffusion) (w : world) : world :=
  {| self := d; rng := rng w; training := training w; trace := trace w |}.


(** The outcome of a run, seen around another object. *)
Definition around {A} (d : Diffusion) (r : result (A * world))
  : result (A * world) :=
  match r with
  | Ok (a, w') => Ok (a, with_self d w')
  | Raise e => Raise e
  end.



(** The tensor and the world with which the loop of [sample] starts. *)
Definition sample_start (n : nat) (w : world) : tensor * world :=
  let sh := repeat (3 * img_size (self w) * img_size (self w))%nat n in
  (fst (draw_samples sh (rng w)),
   log (Randn sh)
       (with_rng (snd (draw_samples sh (rng w)))
                 (log Eval (with_training false w)))).

End Methods.


(** Two objects that agree on everything but entry 0 of the three schedule
    tensors. *)
Definition agree_after_first (d d' : Diffusion) : Prop :=
  noise_steps d = noise_steps d' /\ img_size d = img_size d' /\
  length (beta d) = length (beta d') /\
  length (alpha d) = length (alpha d') /\
  length (alpha_hat d) = length (alpha_hat d') /\
  forall i, (1 <= i)%nat ->
            nth i (beta d) 0 = nth i (beta d') 0 /\
            nth i (alpha d) 0 = nth i (alpha d') 0 /\
            nth i (alpha_hat d) 0 = nth i (alpha_hat d') 0.

(** The calls on the model recorded in a trace, in order. *)
Fixpoint forward_calls (tr : list event) : list (tensor * list Z) :=
  match tr with
  | [] => []
  | Forward _ x t :: tr' => (x, t) :: forward_calls tr'
  | _ :: tr' => forward_calls tr'
  end.

(** What the loop of [sample] may record while the model is in mode [m]. *)
Definition in_loop (m : bool) (e : event) : Prop :=
  match e with
  | Forward m' _ _ => m' = m
  | Randn _ => True
  | _ => False
  end.



(** ** A concrete entropy source and a concrete model *)

(** A generator whose normal draws are all 0 and whose integer draws are
    the low end of the range. *)
Definition zero_source : EntropySource :=
  {| gen := unit;
     next_normal := fun g => (0, g);
     next_int := fun lo hi g => (lo, g);
     next_int_range := fun lo hi _ (H : (lo < hi)%Z) => conj (Z.le_refl lo) H |}.

(** A model that returns its input as the predicted noise. *)
Definition echo_model : Predictor :=
  {| forward := fun _ x _ => Ok x |}.

Definition demo_world (d : Diffusion) (mode : bool) : @world zero_source :=
  @Build_world zero_source d tt mode [].



(** An object whose three schedule tensors have another entry 0. *)
Definition replace_first (v : R) (a : vec) : vec :=
  match a with
  | [] => []
  | _ :: a' => v :: a'
  end.

Definition with_first_entries (v : R) (d : Diffusion) : Diffusion :=
  {| noise_steps := noise_steps d; beta_start := beta_start d;
     beta_end := beta_end d; img_size := img_size d;
     beta := replace_first v (beta d);
     alpha := replace_first v (alpha d);
     alpha_hat := replace_first v (alpha_hat d) |}.

(** * Properties *)

Unset Implicit Arguments.

(** ** Lists, results and broadcasting *)

Lemma nth_map_seq {A} (f : nat -> A) (n i : nat) (d : A) :
  (i < n)%nat -> nth i (map f (seq 0 n)) d = f i.
Proof.
  intros Hi.
  rewrite (nth_indep _ d (f 0%nat)) by (rewrite length_map, length_seq; exact Hi).
  rewrite (map_nth f (seq 0 n) 0%nat i), seq_nth by exact Hi.
  reflexivity.
Qed.

Lemma broadcast_same {A B C} (f : A -> B -> C) (a : list A) (b : list B) :
  length a = length b -> broadcast f a b = Ok (map2 f a b).
Proof.
  intros H. unfold broadcast. rewrite H, Nat.eqb_refl. reflexivity.
Qed.

Lemma length_map2 {A B C} (f : A -> B -> C) (a : list A) (b : list B) :
  length a = length b -> length (map2 f a b) = length a.
Proof.
  revert b; induction a as [|u a IH]; intros [|v b] H; simpl in *;
    try discriminate; [reflexivity|].
  f_equal; apply IH; congruence.
Qed.




Lemma shape_length (x y : tensor) : shape x = shape y -> length x = length y.
Proof.
  intros H. apply (f_equal (@length nat)) in H.
  unfold shape in H. rewrite !length_map in H. exact H.
Qed.

Lemma shape_map_map (f : R -> R) (x : tensor) : shape (map (map f) x) = shape x.
Proof.
  unfold shape. rewrite map_map. apply map_ext. intros row. apply length_map.
Qed.


Lemma pointwise_same_shape (op : R -> R -> R) (a b : tensor) :
  shape a = shape b -> pointwise op a b = Ok (map2 (map2 op) a b).
Proof.
  intros H. unfold pointwise.
  rewrite broadcast_same by (apply shape_length; exact H). simpl.
  revert b H; induction a as [|u a IH]; intros [|v b] H; simpl in *;
    try discriminate; [reflexivity|].
  injection H as Hl Hs.
  rewrite broadcast_same by exact Hl. simpl.
  rewrite (IH b Hs). reflexivity.
Qed.



Lemma per_sample_same (op : R -> R -> R) (c : vec) (x : tensor) :
  length c = length x ->
  per_sample op c x = Ok (map2 (fun ci row => map (op ci) row) c x).
Proof. intros H. unfold per_sample. apply broadcast_same. exact H. Qed.

Lemma shape_per_sample (op : R -> R -> R) (c : vec) (x : tensor) :
  length c = length x ->
  shape (map2 (fun ci row => map (op ci) row) c x) = shape x.
Proof.
  revert x; induction c as [|u c IH]; intros [|row x] H; simpl in *;
    try discriminate; [reflexivity|].
  rewrite length_map. f_equal. apply IH. congruence.
Qed.

(** ** Indexing *)

Lemma index_select_in_range (a : vec) (t : list Z) :
  Forall (fun i => - Z.of_nat (length a) <= i < Z.of_nat (length a))%Z t ->
  index_select a t =
  Ok (map (fun i => nth (Z.to_nat (i mod Z.of_nat (length a))) a 0) t).
Proof.
  intros H. unfold index_select.
  induction H as [|i t Hi Ht IH]; simpl; [reflexivity|].
  assert (E1 : ((- Z.of_nat (length a) <=? i) && (i <? Z.of_nat (length a)))%Z = true).
  { apply andb_true_iff; split; [apply Z.leb_le | apply Z.ltb_lt]; lia. }
  rewrite E1. simpl. rewrite IH. simpl.
  do 3 f_equal.
  destruct (Z.ltb_spec i 0).
  - rewrite <- (Z.mod_unique_pos i (Z.of_nat (length a)) (-1) (i + Z.of_nat (length a))); lia.
  - rewrite Z.mod_small by lia. reflexivity.
Qed.

Lemma index_select_nonneg (a : vec) (t : list Z) :
  Forall (fun i => 0 <= i < Z.of_nat (length a))%Z t ->
  index_select a t = Ok (map (fun i => nth (Z.to_nat i) a 0) t).
Proof.
  intros H. rewrite index_select_in_range.
  - f_equal. apply map_ext_in. intros i Hi.
    rewrite Forall_forall in H. specialize (H i Hi).
    rewrite Z.mod_small by lia. reflexivity.
  - eapply Forall_impl; [|exact H]. simpl. intros; lia.
Qed.

Lemma index_select_out_of_range (a : vec) (t : list Z) :
  Exists (fun i => i < - Z.of_nat (length a) \/ Z.of_nat (length a) <= i)%Z t ->
  index_select a t = Raise IndexError.
Proof.
  intros H. unfold index_select.
  induction H as [i t Hi | i t Ht IH]; simpl.
  - assert (E1 : ((- Z.of_nat (length a) <=? i) && (i <? Z.of_nat (length a)))%Z = false).
    { apply andb_false_iff.
      destruct Hi; [left; apply Z.leb_gt | right; apply Z.ltb_ge]; lia. }
    rewrite E1. reflexivity.
  - destruct ((- Z.of_nat (length a) <=? i) && (i <? Z.of_nat (length a)))%Z;
      simpl; [|reflexivity].
    rewrite IH. reflexivity.
Qed.


(** ** The noise schedule *)

(** Both branches of the library's formula are the same affine function
    of the index. *)
Lemma linspace_at_closed (s e : R) (T idx : Z) :
  (1 <= T)%Z -> (0 <= idx < T)%Z ->
  linspace_at s e T idx = s + IZR idx * ((e - s) / IZR (T - 1)).
Proof.
  intros HT Hidx. unfold linspace_at.
  destruct (Z.eqb_spec T 1) as [E|NE].
  - assert (idx = 0%Z) by lia. subst idx. simpl. lra.
  - assert (Hnz : IZR (T - 1) <> 0) by (apply not_0_IZR; lia).
    destruct (idx <? T / 2)%Z.
    + lra.
    + replace (T - idx - 1)%Z with ((T - 1) - idx)%Z by lia.
      rewrite (minus_IZR (T - 1) idx). field. exact Hnz.
Qed.

Lemma linspace_ok (s e : R) (T : Z) :
  (0 <= T)%Z ->
  linspace s e T =
  Ok (map (fun k => linspace_at s e T (Z.of_nat k)) (seq 0 (Z.to_nat T))).
Proof.
  intros HT. unfold linspace.
  destruct (Z.ltb_spec T 0); [lia | reflexivity].
Qed.

Lemma linspace_negative (s e : R) (T : Z) :
  (T < 0)%Z -> linspace s e T = Raise RuntimeError.
Proof.
  intros HT. unfold linspace.
  destruct (Z.ltb_spec T 0); [reflexivity | lia].
Qed.

Lemma Diffusion_init_ok (T : Z) (bs be : R) (size : nat) :
  (0 <= T)%Z -> Diffusion_init T bs be size = Ok (built T bs be size).
Proof.
  intros HT. unfold Diffusion_init, prepare_noise_schedule.
  rewrite linspace_ok by exact HT. reflexivity.
Qed.

Lemma Diffusion_init_inv (T : Z) (bs be : R) (size : nat) (d : Diffusion) :
  Diffusion_init T bs be size = Ok d -> (0 <= T)%Z /\ d = built T bs be size.
Proof.
  intros H. destruct (Z.ltb_spec T 0) as [Hneg|Hpos].
  - unfold Diffusion_init, prepare_noise_schedule in H.
    rewrite linspace_negative in H by exact Hneg. discriminate.
  - rewrite Diffusion_init_ok in H by exact Hpos.
    split; [exact Hpos | congruence].
Qed.

Lemma length_cumprod_from (acc : R) (a : vec) :
  length (cumprod_from acc a) = length a.
Proof.
  revert acc; induction a as [|v a IH]; intros acc; simpl; [reflexivity|].
  rewrite IH; reflexivity.
Qed.

Lemma built_lengths (T : Z) (bs be : R) (size : nat) :
  length (beta (built T bs be size)) = Z.to_nat T /\
  length (alpha (built T bs be size)) = Z.to_nat T /\
  length (alpha_hat (built T bs be size)) = Z.to_nat T.
Proof.
  simpl. unfold cumprod.
  rewrite length_cumprod_from, !length_map, length_seq. auto.
Qed.

Lemma beta_nth (T : Z) (bs be : R) (size : nat) (i : nat) :
  (i < Z.to_nat T)%nat ->
  nth i (beta (built T bs be size)) 0 =
  bs + IZR (Z.of_nat i) * ((be - bs) / IZR (T - 1)).
Proof.
  intros Hi. simpl.
  rewrite (nth_map_seq (fun k => linspace_at bs be T (Z.of_nat k))) by exact Hi.
  apply linspace_at_closed; lia.
Qed.



Lemma beta_bounds (T : Z) (bs be : R) (size : nat) (i : nat) :
  bs < be -> (i < Z.to_nat T)%nat ->
  bs <= nth i (beta (built T bs be size)) 0 /\
  (nth i (beta (built T bs be size)) 0 <= be \/ T = 1%Z).
Proof.
  intros Hb Hi. rewrite beta_nth by exact Hi.
  destruct (Z.eq_dec T 1) as [E|NE].
  - subst T. assert (i = 0%nat) by lia. subst i. simpl. split; [lra | right; reflexivity].
  - assert (Hpos : 0 < IZR (T - 1)) by (apply IZR_lt; lia).
    assert (Hi0 : 0 <= IZR (Z.of_nat i)) by (apply IZR_le; lia).
    assert (Hi1 : IZR (Z.of_nat i) <= IZR (T - 1)) by (apply IZR_le; lia).
    assert (Hstep : 0 < (be - bs) / IZR (T - 1)) by (apply Rdiv_lt_0_compat; lra).
    split; [nra|]. left.
    assert (E : be = bs + IZR (T - 1) * ((be - bs) / IZR (T - 1))) by (field; lra).
    rewrite E at 2. nra.
Qed.

(** ** The cumulative product *)







(** ** The two update formulas, as the specification words them *)






Lemma map2_rows_forward (c c' : R) (xr er : list R) :
  map2 Rplus (map (Rmult c) xr) (map (Rmult c') er)
  = map2 (fun xv ev => c * xv + c' * ev) xr er.
Proof.
  revert er; induction xr as [|xv xr IH]; intros [|ev er]; simpl;
    try reflexivity.
  rewrite IH. reflexivity.
Qed.

Lemma map3_batch_forward (g : Z -> R) (t : list Z) (x eps : tensor) :
  map2 (map2 Rplus)
       (map2 (fun ci row => map (Rmult ci) row) (map sqrt (map g t)) x)
       (map2 (fun ci row => map (Rmult ci) row)
             (map sqrt (map (fun a => 1 - a) (map g t))) eps)
  = map3 (fun ti xr er => map2 (spec_forward (g ti)) xr er) t x eps.
Proof.
  revert x eps; induction t as [|ti t IH]; intros [|xr x] [|er eps];
    simpl; try reflexivity.
  rewrite IH, map2_rows_forward. reflexivity.
Qed.

Lemma forward_mix_same_shape (g : Z -> R) (t : list Z) (x eps : tensor) :
  length x = length t -> shape eps = shape x ->
  forward_mix (map sqrt (map g t))
              (map sqrt (map (fun a => 1 - a) (map g t))) x eps
  = Ok (map3 (fun ti xr er => map2 (spec_forward (g ti)) xr er) t x eps).
Proof.
  intros Hx He. unfold forward_mix.
  assert (He' : length eps = length t)
    by (rewrite (shape_length eps x He); exact Hx).
  rewrite per_sample_same by (rewrite !length_map; symmetry; exact Hx).
  simpl rbind.
  rewrite per_sample_same by (rewrite !length_map; symmetry; exact He').
  simpl rbind.
  rewrite pointwise_same_shape.
  - rewrite map3_batch_forward. reflexivity.
  - rewrite !shape_per_sample by (rewrite !length_map; congruence).
    symmetry; exact He.
Qed.

(** ** Runs of the methods *)

Lemma forward_calls_app (tr1 tr2 : list event) :
  forward_calls (tr1 ++ tr2) = forward_calls tr1 ++ forward_calls tr2.
Proof.
  induction tr1 as [|e tr1 IH]; simpl; [reflexivity|].
  destruct e; simpl; rewrite ?IH; reflexivity.
Qed.



Lemma length_reversed_range (T : Z) :
  length (reversed (range 1 T)) = Z.to_nat (T - 1).
Proof.
  unfold reversed, range. rewrite length_rev, length_map, length_seq.
  reflexivity.
Qed.

Lemma reversed_range_bounds (T : Z) :
  Forall (fun i => 1 <= i < T)%Z (reversed (range 1 T)).
Proof.
  apply Forall_forall. intros i Hi.
  unfold reversed, range in Hi. apply in_rev in Hi.
  apply in_map_iff in Hi. destruct Hi as (k & <- & Hk).
  apply in_seq in Hk. lia.
Qed.

Section Runs.
Context `{ES : EntropySource} `{P : Predictor}.

Lemma length_draw_normals (k : nat) (g : gen) :
  length (fst (draw_normals k g)) = k.
Proof.
  revert g; induction k as [|k IH]; intros g; simpl; [reflexivity|].
  destruct (next_normal g) as [v g1].
  specialize (IH g1). destruct (draw_normals k g1) as [vs g2].
  simpl in *. congruence.
Qed.

Lemma shape_draw_samples (sh : list nat) (g : gen) :
  shape (fst (draw_samples sh g)) = sh.
Proof.
  revert g; induction sh as [|k sh IH]; intros g; simpl; [reflexivity|].
  pose proof (length_draw_normals k g) as Hk.
  destruct (draw_normals k g) as [row g1].
  specialize (IH g1). destruct (draw_samples sh g1) as [rows g2].
  simpl in *. congruence.
Qed.

Lemma length_draw_ints (lo hi : Z) (k : nat) (g : gen) :
  length (fst (draw_ints lo hi k g)) = k.
Proof.
  revert g; induction k as [|k IH]; intros g; simpl; [reflexivity|].
  destruct (next_int lo hi g) as [v g1].
  specialize (IH g1). destruct (draw_ints lo hi k g1) as [vs g2].
  simpl in *. congruence.
Qed.

Lemma draw_ints_range (lo hi : Z) (k : nat) (g : gen) :
  (lo < hi)%Z ->
  Forall (fun v => lo <= v < hi)%Z (fst (draw_ints lo hi k g)).
Proof.
  intros Hr. revert g; induction k as [|k IH]; intros g; simpl;
    [constructor|].
  pose proof (@next_int_range ES lo hi g Hr) as Hv.
  destruct (next_int lo hi g) as [v g1].
  specialize (IH g1). destruct (draw_ints lo hi k g1) as [vs g2].
  simpl in *. constructor; assumption.
Qed.

(** *** [noise_images] *)

Lemma noise_images_run (x : tensor) (t : list Z) (w : world) :
  Forall (fun i => - Z.of_nat (length (alpha_hat (self w))) <= i
                   < Z.of_nat (length (alpha_hat (self w))))%Z t ->
  length x = length t ->
  noise_images x t w =
  Ok ((map3 (fun ti xr er =>
               map2 (spec_forward
                       (nth (Z.to_nat (ti mod Z.of_nat (length (alpha_hat (self w)))))
                            (alpha_hat (self w)) 0)) xr er)
            t x (fst (draw_samples (shape x) (rng w))),
       fst (draw_samples (shape x) (rng w))),
      log (Randn (shape x)) (with_rng (snd (draw_samples (shape x) (rng w))) w)).
Proof.
  intros Ht Hx.
  unfold noise_images, bind, get_self, lift, randn_like, randn, ret.
  rewrite (index_select_in_range _ _ Ht).
  pose proof (shape_draw_samples (shape x) (rng w)) as Hs.
  destruct (draw_samples (shape x) (rng w)) as [eps g'].
  simpl in Hs |- *.
  rewrite (forward_mix_same_shape
             (fun i => nth (Z.to_nat (i mod Z.of_nat (length (alpha_hat (self w)))))
                           (alpha_hat (self w)) 0) t x eps Hx Hs).
  reflexivity.
Qed.

Lemma noise_images_index_error (x : tensor) (t : list Z) (w : world) :
  Exists (fun i => i < - Z.of_nat (length (alpha_hat (self w)))
                   \/ Z.of_nat (length (alpha_hat (self w))) <= i)%Z t ->
  noise_images x t w = Raise IndexError.
Proof.
  intros Ht.
  unfold noise_images, bind, get_self, lift.
  rewrite (index_select_out_of_range _ _ Ht). reflexivity.
Qed.

Lemma noise_images_inv (x : tensor) (t : list Z) (w w' : world)
      (r : tensor * tensor) :
  noise_images x t w = Ok (r, w') ->
  self w' = self w /\ training w' = training w /\
  trace w' = trace w ++ [Randn (shape x)] /\
  snd r = fst (draw_samples (shape x) (rng w)) /\
  rng w' = snd (draw_samples (shape x) (rng w)).
Proof.
  unfold noise_images, bind, get_self, lift, randn_like, randn, ret.
  destruct (index_select (alpha_hat (self w)) t); [|discriminate].
  destruct (draw_samples (shape x) (rng w)) as [eps g'].
  destruct (forward_mix _ _ x eps); [|discriminate].
  intros H. injection H as <- <-. simpl. auto.
Qed.

(** *** [sample_timesteps] *)

Lemma sample_timesteps_run (n : nat) (w : world) :
  (1 < noise_steps (self w))%Z ->
  sample_timesteps n w =
  Ok (fst (draw_ints 1 (noise_steps (self w)) n (rng w)),
      log (Randint 1 (noise_steps (self w)) n)
          (with_rng (snd (draw_ints 1 (noise_steps (self w)) n (rng w))) w)).
Proof.
  intros HT. unfold sample_timesteps, bind, get_self, randint.
  destruct (Z.ltb_spec 1 (noise_steps (self w))); [|lia].
  destruct (draw_ints 1 (noise_steps (self w)) n (rng w)); reflexivity.
Qed.

Lemma sample_timesteps_empty_range (n : nat) (w : world) :
  (noise_steps (self w) <= 1)%Z ->
  sample_timesteps n w = Raise RuntimeError.
Proof.
  intros HT. unfold sample_timesteps, bind, get_self, randint.
  destruct (Z.ltb_spec 1 (noise_steps (self w))); [lia | reflexivity].
Qed.

Lemma sample_timesteps_inv (n : nat) (w w' : world) (r : list Z) :
  sample_timesteps n w = Ok (r, w') ->
  self w' = self w /\ training w' = training w.
Proof.
  unfold sample_timesteps, bind, get_self, randint.
  destruct (1 <? noise_steps (self w))%Z; [|discriminate].
  destruct (draw_ints 1 (noise_steps (self w)) n (rng w)).
  intros H. injection H as <- <-. simpl. auto.
Qed.

(** *** One iteration of the loop of [sample] *)




(** Whatever the model does, an iteration that returns has left the
    object and the mode alone and has recorded only its own events. *)
Lemma sample_step_inv (n : nat) (i : Z) (x x' : tensor) (w w' : world) :
  sample_step n i x w = Ok (x', w') ->
  self w' = self w /\ training w' = training w /\
  trace w' = trace w ++ Forward (training w) x (repeat i n)
                        :: (if (1 <? i)%Z then [Randn (shape x)] else []).
Proof.
  unfold sample_step, bind, get_self, model_call, lift.
  destruct (forward (training w) x (repeat i n)); [|discriminate].
  simpl self.
  destruct (index_select (alpha (self w)) (repeat i n)); [|discriminate].
  destruct (index_select (alpha_hat (self w)) (repeat i n)); [|discriminate].
  destruct (index_select (beta (self w)) (repeat i n)); [|discriminate].
  destruct (1 <? i)%Z.
  - unfold randn_like, randn. simpl rng.
    destruct (draw_samples (shape x) (rng w)) as [z g'].
    destruct (reverse_update _ _ _ _ _ _); [|discriminate].
    intros H. injection H as <- <-. simpl.
    rewrite <- app_assoc. auto.
  - unfold ret.
    destruct (reverse_update _ _ _ _ _ _); [|discriminate].
    intros H. injection H as <- <-. simpl. auto.
Qed.

(** *** The loop *)


Lemma for_each_inv (n : nat) (l : list Z) :
  forall (x x' : tensor) (w w' : world),
    for_each l (sample_step n) x w = Ok (x', w') ->
    self w' = self w /\ training w' = training w /\
    exists (mid : list event) (xs : list tensor),
      trace w' = trace w ++ mid /\
      Forall (in_loop (training w)) mid /\
      length xs = length l /\
      forward_calls mid = map2 (fun i y => (y, repeat i n)) l xs.
Proof.
  induction l as [|i l IH]; intros x x' w w' H.
  - injection H as <- <-. repeat split.
    exists [], []. rewrite app_nil_r. repeat split. constructor.
  - simpl in H. unfold bind at 1 in H.
    destruct (sample_step n i x w) as [[x1 w1]|] eqn:Hs; [|discriminate].
    apply sample_step_inv in Hs. destruct Hs as (Hs1 & Hm1 & Ht1).
    apply IH in H.
    destruct H as (Hs2 & Hm2 & mid2 & xs & Ht2 & Hall2 & Hlen & Hcalls).
    repeat split; try congruence.
    exists ((Forward (training w) x (repeat i n)
             :: (if (1 <? i)%Z then [Randn (shape x)] else [])) ++ mid2),
           (x :: xs).
    split; [rewrite Ht2, Ht1, app_assoc; reflexivity|].
    split; [|split].
    + apply Forall_app. split.
      * destruct (1 <? i)%Z; repeat constructor.
      * rewrite Hm1 in Hall2. exact Hall2.
    + simpl. congruence.
    + rewrite forward_calls_app. simpl.
      destruct (1 <? i)%Z; simpl; rewrite Hcalls; reflexivity.
Qed.

End Runs.

(** ** Conversion to the display range *)

Lemma clamp_bounds (v : R) : -1 <= clamp (-1) 1 v <= 1.
Proof.
  unfold clamp. split.
  - apply Rmin_glb; [apply Rmax_r | lra].
  - apply Rmin_r.
Qed.

Lemma Int_part_bounds (v : R) (lo hi : Z) :
  IZR lo <= v -> v <= IZR hi -> (lo <= Int_part v <= hi)%Z.
Proof.
  intros Hlo Hhi. destruct (base_Int_part v) as [H1 H2]. split.
  - assert (H : IZR lo < IZR (Int_part v + 1)) by (rewrite plus_IZR; lra).
    apply lt_IZR in H. lia.
  - apply le_IZR. lra.
Qed.

Lemma Int_part_monotone (u v : R) : u <= v -> (Int_part u <= Int_part v)%Z.
Proof.
  intros H.
  destruct (base_Int_part u) as [Hu _]. destruct (base_Int_part v) as [_ Hv].
  assert (Hlt : IZR (Int_part u) < IZR (Int_part v + 1))
    by (rewrite plus_IZR; lra).
  apply lt_IZR in Hlt. lia.
Qed.

Lemma to_uint8_exact (v : R) :
  0 <= v <= 255 -> to_uint8 v = Int_part v /\ (0 <= Int_part v <= 255)%Z.
Proof.
  intros [H0 H1].
  assert (Hb : (0 <= Int_part v <= 255)%Z) by (apply Int_part_bounds; assumption).
  split; [|exact Hb].
  unfold to_uint8, truncate.
  destruct (Rle_dec 0 v) as [_|Hn]; [|contradiction].
  apply Z.mod_small. lia.
Qed.

Lemma scaled_bounds (v : R) : 0 <= (clamp (-1) 1 v + 1) / 2 * 255 <= 255.
Proof. pose proof (clamp_bounds v). lra. Qed.


Lemma to_display_spec (x : tensor) : to_display x = map (map spec_pixel) x.
Proof.
  unfold to_display. rewrite map_map. apply map_ext. intros row.
  rewrite map_map. apply map_ext. intros v.
  apply (to_uint8_exact _ (scaled_bounds v)).
Qed.

(** ** Runs of [sample] *)

Section SampleRuns.
Context `{ES : EntropySource} `{P : Predictor}.

Lemma sample_unfold (n : nat) (w : world) :
  sample n w =
  match sample_loop n (fst (sample_start n w)) (snd (sample_start n w)) with
  | Ok (x, w2) => Ok (to_display x, log Train (with_training true w2))
  | Raise e => Raise e
  end.
Proof.
  unfold sample, sample_start, bind, get_self, model_eval, randn, model_train, ret.
  simpl.
  destruct (draw_samples _ (rng w)) as [x0 g']. simpl.
  destruct (sample_loop n x0 _) as [[x w2]|e]; reflexivity.
Qed.

Lemma sample_start_facts (n : nat) (w : world) :
  shape (fst (sample_start n w))
  = repeat (3 * img_size (self w) * img_size (self w))%nat n /\
  self (snd (sample_start n w)) = self w /\
  training (snd (sample_start n w)) = false /\
  trace (snd (sample_start n w))
  = trace w ++ [Eval; Randn (repeat (3 * img_size (self w) * img_size (self w))%nat n)].
Proof.
  unfold sample_start. simpl. rewrite shape_draw_samples, <- app_assoc. auto.
Qed.


Lemma sample_return (n : nat) (w w' : world) (r : list (list Z)) :
  sample n w = Ok (r, w') ->
  exists (x : tensor) (w2 : world),
    sample_loop n (fst (sample_start n w)) (snd (sample_start n w)) = Ok (x, w2) /\
    r = to_display x /\ w' = log Train (with_training true w2).
Proof.
  rewrite sample_unfold.
  destruct (sample_loop n _ _) as [[x w2]|e]; [|discriminate].
  intros H. injection H as <- <-. exists x, w2. auto.
Qed.

Lemma sample_inv (n : nat) (w w' : world) (r : list (list Z)) :
  sample n w = Ok (r, w') ->
  self w' = self w /\ training w' = true /\
  exists (mid : list event) (xs : list tensor),
    trace w' = trace w ++ [Eval] ++ mid ++ [Train] /\
    Forall (in_loop false) mid /\
    length xs = Z.to_nat (noise_steps (self w) - 1) /\
    forward_calls mid
    = map2 (fun i y => (y, repeat i n))
           (reversed (range 1 (noise_steps (self w)))) xs.
Proof.
  intros H. apply sample_return in H.
  destruct H as (x & w2 & Hloop & -> & ->).
  destruct (sample_start_facts n w) as (Hsh & Hself & Hmode & Htr).
  unfold sample_loop, bind, get_self in Hloop.
  apply for_each_inv in Hloop.
  destruct Hloop as (Hs & Hm & mid & xs & Ht & Hall & Hlen & Hcalls).
  rewrite Hself in Hcalls, Hlen.
  simpl. repeat split; [congruence|].
  exists (Randn (repeat (3 * img_size (self w) * img_size (self w))%nat n) :: mid),
         xs.
  split; [rewrite Ht, Htr, <- !app_assoc; reflexivity|].
  split; [|split].
  - constructor; [exact I|]. rewrite Hmode in Hall. exact Hall.
  - rewrite Hlen. apply length_reversed_range.
  - simpl. exact Hcalls.
Qed.

End SampleRuns.

(** ** The concrete model honours the predictor interface *)


Lemma map3_ext_in {A B C D} (f g : A -> B -> C -> D)
      (a : list A) (b : list B) (c : list C) :
  (forall u, In u a -> f u = g u) -> map3 f a b c = map3 g a b c.
Proof.
  revert b c; induction a as [|u a IH]; intros [|v b] [|w c] H; simpl;
    try reflexivity.
  rewrite (H u (or_introl eq_refl)), IH; [reflexivity|].
  intros u' Hu'. apply H. right. exact Hu'.
Qed.

(** * The claims *)

(** C1: for a batch [x] and a batch [t] of valid timesteps (one per sample,
    each with [0 <= t_i < T]), [noise_images x t] draws one array [eps] of the
    shape of [x] from the generator, records exactly one draw, and returns
    the pair [(noisy, eps)] where every element of sample [i] of [noisy] is
    [sqrt(alpha_hat[t_i]) * x + sqrt(1 - alpha_hat[t_i]) * eps]; the closed
    form reads the schedule once per sample and runs no loop over
    timesteps. *)
Theorem noise_images_closed_form
        `{ES : EntropySource}
        (T : Z) (bs be : R) (size : nat) (d : Diffusion)
        (w : world) (x : tensor) (t : list Z) :
  Diffusion_init T bs be size = Ok d ->
  self w = d ->
  length x = length t ->
  Forall (fun i => 0 <= i < T)%Z t ->
  exists (eps : tensor) (w' : world),
    noise_images x t w =
    Ok ((map3 (fun ti xr er =>
                 map2 (spec_forward (nth (Z.to_nat ti) (alpha_hat d) 0)) xr er)
              t x eps, eps), w') /\
    eps = fst (draw_samples (shape x) (rng w)) /\
    shape eps = shape x /\
    rng w' = snd (draw_samples (shape x) (rng w)) /\
    trace w' = trace w ++ [Randn (shape x)] /\
    self w' = self w /\ training w' = training w.
Proof.
  intros Hd Hw Hx Ht.
  apply Diffusion_init_inv in Hd. destruct Hd as [HT ->].
  destruct (built_lengths T bs be size) as (_ & _ & Hlen).
  assert (Hlen' : Z.of_nat (length (alpha_hat (self w))) = T)
    by (rewrite Hw, Hlen; lia).
  exists (fst (draw_samples (shape x) (rng w))),
         (log (Randn (shape x))
              (with_rng (snd (draw_samples (shape x) (rng w))) w)).
  split.
  - rewrite noise_images_run.
    + do 3 f_equal. apply map3_ext_in. intros ti Hti.
      rewrite Forall_forall in Ht. specialize (Ht ti Hti).
      rewrite Hlen', Z.mod_small by lia. rewrite Hw. reflexivity.
    + rewrite Hlen'. eapply Forall_impl; [|exact Ht]. simpl. intros; lia.
    + exact Hx.
  - simpl. rewrite shape_draw_samples. repeat split; reflexivity.
Qed.

Lemma noise_images_closed_form_witness :
  exists r w',
    noise_images (ES := zero_source)
                 [[1; 2]; [3; 4]] [0%Z; 2%Z]
                 (demo_world (built 3 (1/10) (2/10) 1) true) = Ok (r, w')
    /\ snd r = [[0; 0]; [0; 0]]
    /\ trace w' = [Randn [2%nat; 2%nat]].
Proof.
  destruct (noise_images_closed_form
              (ES := zero_source)
              3 (1/10) (2/10) 1 (built 3 (1/10) (2/10) 1)
              (demo_world (built 3 (1/10) (2/10) 1) true)
              [[1; 2]; [3; 4]] [0%Z; 2%Z])
    as (eps & w' & Hrun & Heps & _ & _ & Htr & _).
  - reflexivity.
  - reflexivity.
  - reflexivity.
  - repeat constructor; lia.
  - exists (map3 (fun ti xr er =>
                    map2 (spec_forward
                            (nth (Z.to_nat ti)
                                 (alpha_hat (built 3 (1/10) (2/10) 1)) 0)) xr er)
                 [0%Z; 2%Z] [[1; 2]; [3; 4]] eps, eps), w'.
    split; [exact Hrun|]. split; [exact Heps | exact Htr].
Defined.







(** C10: whenever [sample model n] returns, whatever the mode of the model
    at the call, the model is in training mode; the call records
    [model.eval()] first and [model.train()] last, and between the two only
    draws from the generator and forward passes made in evaluation mode. *)
Theorem sample_leaves_training_mode
        `{ES : EntropySource} `{P : Predictor}
        (n : nat) (w w' : world) (r : list (list Z)) :
  sample n w = Ok (r, w') ->
  training w' = true /\
  exists mid, trace w' = trace w ++ [Eval] ++ mid ++ [Train] /\
              Forall (in_loop false) mid.
Proof.
  intros H. apply sample_inv in H.
  destruct H as (_ & Hmode & mid & xs & Htrace & Hall & _).
  split; [exact Hmode|]. exists mid. split; assumption.
Qed.

Lemma sample_leaves_training_mode_witness :
  exists r w',
    sample (ES := zero_source) (P := echo_model) 1
           (demo_world (built 3 (1/10) (2/10) 1) false) = Ok (r, w')
    /\ training w' = true.
Proof.
  eexists. eexists. split.
  - reflexivity.
  - eapply (fun r w' Hrun =>
              proj1 (sample_leaves_training_mode
                       (ES := zero_source) (P := echo_model) 1
                       (demo_world (built 3 (1/10) (2/10) 1) false)
                       w' r Hrun)).
    reflexivity.
Defined.



(** *** Rounded arithmetic *)

Lemma linspace_at_rnd_exact (s e : R) (T idx : Z) :
  linspace_at_rnd exact s e T idx = linspace_at s e T idx.
Proof. reflexivity. Qed.

Lemma cumprod_from_rnd_exact (a : vec) (acc : R) :
  cumprod_from_rnd exact exact acc a = cumprod_from acc a.
Proof.
  revert acc; induction a as [|v a IH]; intros acc; simpl; [reflexivity|].
  unfold exact at 1 2 3 4. rewrite IH. reflexivity.
Qed.

(** Without rounding the rounded constructor is the constructor. *)
Lemma Diffusion_init_rnd_exact (T : Z) (bs be : R) (size : nat) :
  Diffusion_init_rnd exact exact T bs be size = Diffusion_init T bs be size.
Proof.
  unfold Diffusion_init_rnd, Diffusion_init, prepare_noise_schedule,
    linspace_rnd, linspace.
  destruct (T <? 0)%Z; [reflexivity|]. simpl.
  unfold cumprod_rnd, cumprod. rewrite cumprod_from_rnd_exact. reflexivity.
Qed.

Lemma exact_rounding : rounding exact.
Proof. unfold rounding, exact. repeat split; auto. Qed.

Lemma rounding_unit (rnd : R -> R) (x : R) :
  rounding rnd -> 0 <= x <= 1 -> 0 <= rnd x <= 1.
Proof.
  intros (Hm & _ & H0 & H1) [Hx0 Hx1].
  split; [rewrite <- H0 | rewrite <- H1]; apply Hm; assumption.
Qed.

Section Rounded.
Variables wide rnd : R -> R.
Hypothesis rnd_rounding : rounding rnd.
Hypothesis wide_rounding : rounding wide.
Hypothesis wide_refines : refines wide rnd.

Lemma length_cumprod_from_rnd (acc : R) (a : vec) :
  length (cumprod_from_rnd wide rnd acc a) = length a.
Proof.
  revert acc; induction a as [|v a IH]; intros acc; simpl; [reflexivity|].
  rewrite IH; reflexivity.
Qed.

Lemma cumprod_from_rnd_nth (a : vec) (acc : R) (i : nat) :
  (i < length a)%nat ->
  nth i (cumprod_from_rnd wide rnd acc a) 0
  = rnd (fold_left (fun c v => wide (c * v)) (firstn (S i) a) acc).
Proof.
  revert acc i; induction a as [|v a IH]; intros acc i Hi; simpl in Hi; [lia|].
  destruct i as [|i].
  - simpl. destruct a; reflexivity.
  - change (firstn (S (S i)) (v :: a)) with (v :: firstn (S i) a).
    simpl. apply IH. lia.
Qed.

(** A rounded product of an accumulator in [0, 1] and a factor in [0, 1]
    is again such an accumulator, and not above the first. *)
Lemma wide_product (acc v : R) :
  wide acc = acc -> 0 <= acc <= 1 -> 0 <= v <= 1 ->
  wide (wide (acc * v)) = wide (acc * v) /\ 0 <= wide (acc * v) <= acc.
Proof.
  destruct wide_rounding as (Hm & Hi & H0 & H1). intros Hacc Hb Hv.
  split; [apply Hi|]. split.
  - rewrite <- H0. apply Hm. apply Rmult_le_pos; lra.
  - rewrite <- Hacc at 2. apply Hm. nra.
Qed.

Lemma cumprod_from_rnd_bounded (a : vec) :
  forall acc : R,
    wide acc = acc -> 0 <= acc <= 1 ->
    Forall (fun v => 0 <= v <= 1) a ->
    forall i, (i < length a)%nat ->
              0 <= nth i (cumprod_from_rnd wide rnd acc a) 0 <= rnd acc.
Proof.
  destruct rnd_rounding as (Hm & Hi & H0 & H1).
  induction a as [|v a IH]; intros acc Hacc Hb Ha i Hlt; simpl in Hlt; [lia|].
  inversion Ha as [|? ? Hv Ha']; subst.
  destruct (wide_product acc v Hacc Hb Hv) as (Hfix & Hnew).
  assert (Hstep : rnd (wide (acc * v)) <= rnd acc) by (apply Hm; lra).
  destruct i as [|i]; simpl.
  - split; [|exact Hstep]. rewrite <- H0. apply Hm. lra.
  - assert (Hrec := IH (wide (acc * v)) Hfix ltac:(lra) Ha' i ltac:(lia)).
    lra.
Qed.

Lemma cumprod_from_rnd_monotone (a : vec) :
  forall acc : R,
    wide acc = acc -> 0 <= acc <= 1 ->
    Forall (fun v => 0 <= v <= 1) a ->
    forall i j, (i < j < length a)%nat ->
                nth j (cumprod_from_rnd wide rnd acc a) 0
                <= nth i (cumprod_from_rnd wide rnd acc a) 0.
Proof.
  induction a as [|v a IH]; intros acc Hacc Hb Ha i j Hij; simpl in Hij; [lia|].
  inversion Ha as [|? ? Hv Ha']; subst.
  destruct (wide_product acc v Hacc Hb Hv) as (Hfix & Hnew).
  destruct j as [|j]; [lia|]. destruct i as [|i]; simpl.
  - apply (cumprod_from_rnd_bounded a (wide (acc * v)) Hfix ltac:(lra) Ha' j).
    lia.
  - apply (IH (wide (acc * v)) Hfix ltac:(lra) Ha'). lia.
Qed.

(** A schedule of two steps holds the two rounded bounds. *)
Lemma linspace_rnd_two (bs be : R) :
  linspace_rnd rnd bs be 2 = Ok [rnd bs; rnd be].
Proof.
  destruct rnd_rounding as (Hm & Hi & H0 & H1).
  unfold linspace_rnd, linspace_at_rnd. simpl.
  rewrite H0, !Rmult_0_r, H0, Rplus_0_r, Rminus_0_r, !Hi. reflexivity.
Qed.

Lemma Diffusion_init_rnd_two (bs be : R) (size : nat) :
  Diffusion_init_rnd wide rnd 2 bs be size
  = Ok {| noise_steps := 2; beta_start := bs; beta_end := be;
          img_size := size;
          beta := [rnd bs; rnd be];
          alpha := [rnd (1 - rnd bs); rnd (1 - rnd be)];
          alpha_hat := [rnd (1 - rnd bs);
                        rnd (wide (rnd (1 - rnd bs) * rnd (1 - rnd be)))] |}.
Proof.
  destruct rnd_rounding as (Hm & Hi & H0 & H1).
  unfold Diffusion_init_rnd. rewrite linspace_rnd_two. cbn [rbind map].
  unfold cumprod_rnd. cbn [cumprod_from_rnd].
  rewrite Rmult_1_l, !wide_refines, Hi. reflexivity.
Qed.

End Rounded.

(** *** Binary formats *)

Lemma pow2_pos (e : Z) : 0 < pow2 e.
Proof. apply powerRZ_lt. lra. Qed.

Lemma pow2_add (a b : Z) : pow2 (a + b) = pow2 a * pow2 b.
Proof. apply powerRZ_add. lra. Qed.

Lemma pow2_cancel (a : Z) : pow2 (- a) * pow2 a = 1.
Proof.
  rewrite <- pow2_add. replace (- a + a)%Z with 0%Z by lia. reflexivity.
Qed.

Lemma pow2_IZR (k : Z) : (0 <= k)%Z -> pow2 k = IZR (2 ^ k).
Proof.
  intros Hk. destruct k as [|p|p]; [reflexivity| |lia].
  unfold pow2. change (2 ^ Z.pos p)%Z with (Z.pow_pos 2 p).
  rewrite Zpower_pos_powerRZ. reflexivity.
Qed.

Lemma pow2_ge_1 (k : Z) : (0 <= k)%Z -> 1 <= pow2 k.
Proof.
  intros Hk. rewrite pow2_IZR by exact Hk. apply IZR_le.
  assert (0 < 2 ^ k)%Z by (apply Z.pow_pos_nonneg; lia). lia.
Qed.

Lemma pow2_gt_1 (k : Z) : (0 < k)%Z -> 1 < pow2 k.
Proof.
  intros Hk. rewrite pow2_IZR by lia. apply IZR_lt.
  apply Z.pow_gt_1; lia.
Qed.

Lemma pow2_le (a b : Z) : (a <= b)%Z -> pow2 a <= pow2 b.
Proof.
  intros H. replace b with (a + (b - a))%Z by lia. rewrite pow2_add.
  pose proof (pow2_pos a). pose proof (pow2_ge_1 (b - a) ltac:(lia)). nra.
Qed.

Lemma pow2_lt (a b : Z) : (a < b)%Z -> pow2 a < pow2 b.
Proof.
  intros H. replace b with (a + (b - a))%Z by lia. rewrite pow2_add.
  pose proof (pow2_pos a). pose proof (pow2_gt_1 (b - a) ltac:(lia)). nra.
Qed.

Lemma pow2_lt_inv (a b : Z) : pow2 a < pow2 b -> (a < b)%Z.
Proof.
  intros H. destruct (Z_lt_le_dec a b) as [L|L]; [exact L|].
  apply pow2_le in L. lra.
Qed.

Lemma pow2_ln (e : Z) : pow2 e = exp (IZR e * ln 2).
Proof. unfold pow2. rewrite powerRZ_Rpower by lra. reflexivity. Qed.

Lemma Int_part_floor (x : R) : IZR (Int_part x) <= x < IZR (Int_part x) + 1.
Proof. destruct (base_Int_part x). lra. Qed.

(** The nearest integer *)

Lemma rne_val (x : R) (n : Z) : Rabs (x - IZR n) < 1/2 -> rne x = n.
Proof.
  intros H. apply Rabs_def2 in H.
  pose proof (Int_part_floor x) as B.
  assert (Hc : Int_part x = n \/ Int_part x = (n - 1)%Z).
  { destruct (Z_lt_le_dec (Int_part x) (n - 1)) as [L|L].
    - assert (Int_part x + 1 <= n - 1)%Z as L1 by lia.
      apply IZR_le in L1. rewrite plus_IZR, minus_IZR in L1. lra.
    - destruct (Z_lt_le_dec n (Int_part x)) as [L'|L'].
      + assert (n + 1 <= Int_part x)%Z as L2 by lia.
        apply IZR_le in L2. rewrite plus_IZR in L2. lra.
      + lia. }
  unfold rne. destruct Hc as [E|E]; rewrite E in *.
  - destruct (Rlt_dec _ _); [reflexivity|lra].
  - rewrite minus_IZR in *. destruct (Rlt_dec _ _); [lra|].
    destruct (Rlt_dec _ _); [lia|lra].
Qed.

Lemma rne_IZR (n : Z) : rne (IZR n) = n.
Proof.
  apply rne_val. replace (IZR n - IZR n) with 0 by ring.
  rewrite Rabs_R0. lra.
Qed.

Lemma rne_monotone (x y : R) : x <= y -> (rne x <= rne y)%Z.
Proof.
  intros H.
  pose proof (Int_part_monotone x y H) as Hf.
  pose proof (Int_part_floor x) as Bx. pose proof (Int_part_floor y) as By.
  destruct (Z.eq_dec (Int_part x) (Int_part y)) as [E|E].
  - unfold rne. rewrite <- E.
    destruct (Rlt_dec (x - _) _); destruct (Rlt_dec (y - _) _); try lia; try lra.
    + destruct (Rlt_dec _ (y - _)); [lia|]. destruct (Z.even _); lia.
    + destruct (Rlt_dec _ (x - _)); destruct (Rlt_dec _ (y - _)); try lia; try lra.
      destruct (Z.even _); lia.
  - assert (L : (Int_part x + 1 <= Int_part y)%Z) by lia.
    assert (Ux : (rne x <= Int_part x + 1)%Z).
    { unfold rne. destruct (Rlt_dec _ _); [lia|].
      destruct (Rlt_dec _ _); [lia|]. destruct (Z.even _); lia. }
    assert (Ly : (Int_part y <= rne y)%Z).
    { unfold rne. destruct (Rlt_dec _ _); [lia|].
      destruct (Rlt_dec _ _); [lia|]. destruct (Z.even _); lia. }
    lia.
Qed.

(** The magnitude *)

Lemma mag_spec (x : R) : x <> 0 -> pow2 (mag x - 1) <= Rabs x < pow2 (mag x).
Proof.
  intros Hx. unfold mag.
  assert (Ha : 0 < Rabs x) by (apply Rabs_pos_lt; exact Hx).
  pose proof (Int_part_floor (ln (Rabs x) / ln 2)) as B.
  assert (L2 : 0 < ln 2) by (pose proof ln_lt_2; lra).
  set (m := Int_part (ln (Rabs x) / ln 2)) in *.
  assert (E : ln (Rabs x) = ln (Rabs x) / ln 2 * ln 2) by (field; lra).
  replace (m + 1 - 1)%Z with m by lia.
  rewrite !pow2_ln, plus_IZR.
  split.
  - apply Rle_trans with (exp (ln (Rabs x)));
      [|rewrite exp_ln by exact Ha; lra].
    destruct (Req_dec (IZR m * ln 2) (ln (Rabs x))) as [Q|Q].
    + rewrite Q. lra.
    + apply Rlt_le. apply exp_increasing. nra.
  - apply Rle_lt_trans with (exp (ln (Rabs x)));
      [rewrite exp_ln by exact Ha; lra|].
    apply exp_increasing. nra.
Qed.

Lemma mag_unique (x : R) (e : Z) :
  pow2 (e - 1) <= Rabs x < pow2 e -> mag x = e.
Proof.
  intros H.
  assert (Hx : x <> 0).
  { intros ->. rewrite Rabs_R0 in H. pose proof (pow2_pos (e - 1)). lra. }
  pose proof (mag_spec x Hx) as S.
  assert (mag x - 1 < e)%Z by (apply pow2_lt_inv; lra).
  assert (e - 1 < mag x)%Z by (apply pow2_lt_inv; lra).
  lia.
Qed.

Lemma mag_le (x y : R) : x <> 0 -> Rabs x <= Rabs y -> (mag x <= mag y)%Z.
Proof.
  intros Hx H.
  assert (Hy : y <> 0).
  { intros ->. rewrite Rabs_R0 in H. pose proof (Rabs_pos_lt x Hx). lra. }
  pose proof (mag_spec x Hx). pose proof (mag_spec y Hy).
  assert (mag x - 1 < mag y)%Z by (apply pow2_lt_inv; lra).
  lia.
Qed.

Lemma mag_le_bound (x : R) (e : Z) :
  x <> 0 -> Rabs x < pow2 e -> (mag x <= e)%Z.
Proof.
  intros Hx H. pose proof (mag_spec x Hx).
  assert (mag x - 1 < e)%Z by (apply pow2_lt_inv; lra).
  lia.
Qed.

Lemma mag_pow2 (s : R) (e : Z) : Rabs s = 1 -> mag (s * pow2 e) = (e + 1)%Z.
Proof.
  intros Hs. apply mag_unique. rewrite Rabs_mult, Hs, Rmult_1_l.
  rewrite (Rabs_pos_eq (pow2 e)) by (apply Rlt_le, pow2_pos).
  replace (e + 1 - 1)%Z with e by lia. split; [lra|].
  apply pow2_lt. lia.
Qed.

(** Rounding to a binary format *)

Section Binary.

Variables prec emin : Z.
Hypothesis prec_pos : (1 <= prec)%Z.
Hypothesis emin_neg : (emin <= 0)%Z.

Lemma binary_0 : binary prec emin 0 = 0.
Proof.
  unfold binary. rewrite Rmult_0_l. rewrite (rne_IZR 0). apply Rmult_0_l.
Qed.

Lemma grid_scale (n e c : Z) :
  (c <= e)%Z -> IZR n * pow2 e = IZR (n * 2 ^ (e - c)) * pow2 c.
Proof.
  intros H. rewrite mult_IZR, <- pow2_IZR by lia.
  rewrite Rmult_assoc, <- pow2_add. do 2 f_equal. lia.
Qed.

Lemma scaled_le (a x : R) (c : Z) : a * pow2 c <= x -> a <= x * pow2 (- c).
Proof.
  intros H. pose proof (pow2_pos (- c)) as P.
  replace a with (a * pow2 c * pow2 (- c)).
  - apply Rmult_le_compat_r; lra.
  - rewrite Rmult_assoc, (Rmult_comm (pow2 c)), pow2_cancel. ring.
Qed.

Lemma scaled_ge (a x : R) (c : Z) : x <= a * pow2 c -> x * pow2 (- c) <= a.
Proof.
  intros H. pose proof (pow2_pos (- c)) as P.
  replace a with (a * pow2 c * pow2 (- c)) at 1.
  - apply Rmult_le_compat_r; lra.
  - rewrite Rmult_assoc, (Rmult_comm (pow2 c)), pow2_cancel. ring.
Qed.

(** A number of the grid of [x] below [x] is below the rounding of [x]. *)
Lemma binary_ge_grid (x : R) (n e : Z) :
  (cexp prec emin x <= e)%Z ->
  IZR n * pow2 e <= x -> IZR n * pow2 e <= binary prec emin x.
Proof.
  intros He H. unfold binary. set (c := cexp prec emin x) in *.
  rewrite (grid_scale n e c He) in *.
  apply Rmult_le_compat_r; [apply Rlt_le, pow2_pos|].
  apply IZR_le. rewrite <- (rne_IZR (n * 2 ^ (e - c))) at 1.
  apply rne_monotone. apply scaled_le. exact H.
Qed.

Lemma binary_le_grid (x : R) (n e : Z) :
  (cexp prec emin x <= e)%Z ->
  x <= IZR n * pow2 e -> binary prec emin x <= IZR n * pow2 e.
Proof.
  intros He H. unfold binary. set (c := cexp prec emin x) in *.
  rewrite (grid_scale n e c He) in *.
  apply Rmult_le_compat_r; [apply Rlt_le, pow2_pos|].
  apply IZR_le. rewrite <- (rne_IZR (n * 2 ^ (e - c))) at 1.
  apply rne_monotone. apply scaled_ge. exact H.
Qed.

(** The numbers of the format are kept. *)
Lemma binary_fix (x : R) (n e : Z) :
  x = IZR n * pow2 e -> (cexp prec emin x <= e)%Z -> binary prec emin x = x.
Proof.
  intros E He. apply Rle_antisym.
  - rewrite E at 2. apply binary_le_grid; [exact He | lra].
  - rewrite E at 1. apply binary_ge_grid; [exact He | lra].
Qed.

Lemma binary_nonneg (x : R) : 0 <= x -> 0 <= binary prec emin x.
Proof.
  intros H. apply Rle_trans with (IZR 0 * pow2 (cexp prec emin x)).
  - lra.
  - apply binary_ge_grid; [lia | lra].
Qed.

Lemma binary_nonpos (x : R) : x <= 0 -> binary prec emin x <= 0.
Proof.
  intros H. apply Rle_trans with (IZR 0 * pow2 (cexp prec emin x)).
  - apply binary_le_grid; [lia | lra].
  - lra.
Qed.

Lemma cexp_le (x y : R) :
  x <> 0 -> Rabs x <= Rabs y -> (cexp prec emin x <= cexp prec emin y)%Z.
Proof.
  intros Hx H. pose proof (mag_le x y Hx H). unfold cexp. lia.
Qed.

Lemma binary_same_cexp (x y : R) :
  cexp prec emin x = cexp prec emin y -> x <= y ->
  binary prec emin x <= binary prec emin y.
Proof.
  intros E H. unfold binary. rewrite E.
  apply Rmult_le_compat_r; [apply Rlt_le, pow2_pos|].
  apply IZR_le, rne_monotone.
  apply Rmult_le_compat_r; [apply Rlt_le, pow2_pos | exact H].
Qed.

Lemma binary_monotone (x y : R) :
  x <= y -> binary prec emin x <= binary prec emin y.
Proof.
  intros H.
  destruct (Rle_dec x 0) as [Hx|Hx]; [destruct (Rle_dec 0 y) as [Hy|Hy]|].
  - pose proof (binary_nonpos x Hx). pose proof (binary_nonneg y Hy). lra.
  - assert (Hy0 : y <> 0) by lra. assert (Hx0 : x <> 0) by lra.
    assert (Ha : Rabs y <= Rabs x).
    { rewrite !Rabs_left by lra. lra. }
    pose proof (cexp_le y x Hy0 Ha) as Hc.
    destruct (Z.eq_dec (cexp prec emin x) (cexp prec emin y)) as [E|E];
      [apply binary_same_cexp; assumption|].
    pose proof (mag_le y x Hy0 Ha) as Hm.
    pose proof (mag_spec x Hx0) as Sx. pose proof (mag_spec y Hy0) as Sy.
    rewrite Rabs_left in Sx, Sy by lra.
    assert (Hlt : (mag y < mag x)%Z) by (unfold cexp in *; lia).
    assert (P : pow2 (mag y) <= pow2 (mag x - 1)) by (apply pow2_le; lia).
    apply Rle_trans with (IZR (-1) * pow2 (mag x - 1)).
    + apply binary_le_grid; [unfold cexp in *; lia | lra].
    + apply binary_ge_grid; [unfold cexp in *; lia | lra].
  - assert (Hy0 : y <> 0) by lra. assert (Hx0 : x <> 0) by lra.
    assert (Ha : Rabs x <= Rabs y).
    { rewrite !Rabs_pos_eq by lra. lra. }
    pose proof (cexp_le x y Hx0 Ha) as Hc.
    destruct (Z.eq_dec (cexp prec emin x) (cexp prec emin y)) as [E|E];
      [apply binary_same_cexp; assumption|].
    pose proof (mag_le x y Hx0 Ha) as Hm.
    pose proof (mag_spec x Hx0) as Sx. pose proof (mag_spec y Hy0) as Sy.
    rewrite Rabs_pos_eq in Sx, Sy by lra.
    assert (Hlt : (mag x < mag y)%Z) by (unfold cexp in *; lia).
    assert (P : pow2 (mag x) <= pow2 (mag y - 1)) by (apply pow2_le; lia).
    apply Rle_trans with (IZR 1 * pow2 (mag y - 1)).
    + apply binary_le_grid; [unfold cexp in *; lia | lra].
    + apply binary_ge_grid; [unfold cexp in *; lia | lra].
Qed.

(** A rounded number is a number of the format. *)
Lemma binary_format (x : R) :
  exists n e, binary prec emin x = IZR n * pow2 e /\
              (cexp prec emin (binary prec emin x) <= e)%Z.
Proof.
  destruct (Req_dec (binary prec emin x) 0) as [Z0|NZ].
  { exists 0%Z, (cexp prec emin 0). rewrite Z0. split; [ring | lia]. }
  assert (Hx : x <> 0) by (intros ->; apply NZ, binary_0).
  pose proof (mag_spec x Hx) as Sx.
  set (c := cexp prec emin x).
  assert (Hk : (c <= mag x)%Z).
  { destruct (Z_lt_le_dec (mag x) c) as [L|L]; [|exact L].
    exfalso. apply NZ. unfold binary. fold c.
    replace (rne (x * pow2 (- c))) with 0%Z; [ring|].
    symmetry. apply rne_val. rewrite Rminus_0_r, Rabs_mult.
    rewrite (Rabs_pos_eq (pow2 (- c))) by apply Rlt_le, pow2_pos.
    pose proof (pow2_pos (- c)) as Pc.
    assert (pow2 (mag x) * pow2 (- c) <= 1/2).
    { rewrite <- pow2_add.
      replace (1 / 2) with (pow2 (-1)) by (unfold pow2; simpl; lra).
      apply pow2_le. lia. }
    nra. }
  assert (U : binary prec emin x <= IZR 1 * pow2 (mag x)).
  { apply binary_le_grid; [exact Hk|]. pose proof (Rle_abs x). lra. }
  assert (L : IZR (-1) * pow2 (mag x) <= binary prec emin x).
  { apply binary_ge_grid; [exact Hk|].
    pose proof (Rle_abs (- x)). rewrite Rabs_Ropp in *. lra. }
  destruct (Rlt_dec (Rabs (binary prec emin x)) (pow2 (mag x))) as [Lt|Ge].
  - exists (rne (x * pow2 (- c))), c. split; [reflexivity|].
    pose proof (mag_le_bound _ _ NZ Lt). unfold cexp in *. lia.
  - assert (Q : binary prec emin x = 1 * pow2 (mag x) \/
                binary prec emin x = -1 * pow2 (mag x)).
    { destruct (Rle_dec 0 (binary prec emin x)) as [P|P].
      - rewrite Rabs_pos_eq in Ge by exact P. left. lra.
      - rewrite Rabs_left in Ge by lra. right. lra. }
    destruct Q as [Q|Q]; rewrite Q.
    + exists 1%Z, (mag x). split; [reflexivity|].
      unfold cexp. rewrite mag_pow2 by (rewrite Rabs_pos_eq; lra).
      unfold c, cexp in Hk. lia.
    + exists (-1)%Z, (mag x). split; [reflexivity|].
      unfold cexp. rewrite mag_pow2 by (rewrite Rabs_left; lra).
      unfold c, cexp in Hk. lia.
Qed.

Lemma binary_idempotent (x : R) :
  binary prec emin (binary prec emin x) = binary prec emin x.
Proof.
  destruct (binary_format x) as (n & e & E & He).
  apply (binary_fix _ n e E He).
Qed.

(** Plus and minus a power of two, from the least exponent on. *)
Lemma binary_pow2 (s e : Z) :
  s = 1%Z \/ s = (-1)%Z -> (emin <= e)%Z ->
  binary prec emin (IZR s * pow2 e) = IZR s * pow2 e.
Proof.
  intros Hs He. apply (binary_fix _ s e eq_refl).
  unfold cexp. rewrite mag_pow2; [lia|].
  destruct Hs as [-> | ->]; [rewrite Rabs_pos_eq | rewrite Rabs_left]; lra.
Qed.

Lemma binary_1 : binary prec emin 1 = 1.
Proof.
  replace 1 with (IZR 1 * pow2 0) by (unfold pow2; simpl; lra).
  apply binary_pow2; [left; reflexivity | exact emin_neg].
Qed.

(** What is less than half the distance between 1 and the number of the
    format just below it is lost when it is taken from 1. *)
Lemma binary_one_minus (b : R) :
  (emin <= - prec)%Z -> 0 <= b < pow2 (- prec - 1) ->
  binary prec emin (1 - b) = 1.
Proof.
  intros He Hb.
  destruct (Req_dec b 0) as [->|Hb0]; [rewrite Rminus_0_r; apply binary_1|].
  assert (P1 : pow2 (- prec - 1) <= pow2 (-2)) by (apply pow2_le; lia).
  assert (P2 : pow2 (-2) = 1/4) by (unfold pow2; simpl; lra).
  assert (P3 : pow2 (-1) = 1/2) by (unfold pow2; simpl; lra).
  assert (Hm : mag (1 - b) = 0%Z).
  { apply mag_unique. rewrite Rabs_pos_eq by lra.
    change (0 - 1)%Z with (-1)%Z. change (pow2 0) with 1. lra. }
  unfold binary, cexp. rewrite Hm.
  replace (Z.max (0 - prec) emin) with (- prec)%Z by lia.
  replace (- - prec)%Z with prec by lia.
  assert (Hs : b * pow2 prec < 1/2).
  { rewrite <- P3. replace (-1)%Z with (- prec - 1 + prec)%Z by lia.
    rewrite pow2_add. apply Rmult_lt_compat_r; [apply pow2_pos | lra]. }
  rewrite (rne_val _ (2 ^ prec)).
  - rewrite <- pow2_IZR by lia. rewrite Rmult_comm. apply pow2_cancel.
  - rewrite <- pow2_IZR by lia.
    replace ((1 - b) * pow2 prec - pow2 prec) with (- (b * pow2 prec)) by ring.
    rewrite Rabs_Ropp, Rabs_pos_eq; [exact Hs|].
    apply Rmult_le_pos; [lra | apply Rlt_le, pow2_pos].
Qed.

Lemma binary_rounding : rounding (binary prec emin).
Proof.
  split; [exact binary_monotone|].
  split; [exact binary_idempotent|].
  split; [exact binary_0 | exact binary_1].
Qed.

End Binary.

(** A format with more digits and a lower least exponent holds the numbers
    of the other. *)
Lemma binary_finer (p1 e1 p2 e2 : Z) (x : R) :
  (1 <= p1 <= p2)%Z -> (e2 <= e1)%Z ->
  binary p2 e2 (binary p1 e1 x) = binary p1 e1 x.
Proof.
  intros Hp He.
  destruct (binary_format p1 e1 ltac:(lia) x) as (n & e & E & Hc).
  apply (binary_fix p2 e2 _ n e E). unfold cexp in *. lia.
Qed.

Lemma binary32_rounding : rounding binary32.
Proof. apply binary_rounding; lia. Qed.

Lemma binary64_rounding : rounding binary64.
Proof. apply binary_rounding; lia. Qed.

Lemma binary64_refines : refines binary64 binary32.
Proof. intros x. apply binary_finer; lia. Qed.

Lemma binary32_refines : refines binary32 binary32.
Proof. intros x. apply binary_finer; lia. Qed.

(** The two-step schedules used below, in single precision with either
    accumulator. *)
Lemma binary32_half : binary32 (1/2) = 1/2.
Proof.
  replace (1/2) with (IZR 1 * pow2 (-1)) by (unfold pow2; simpl; lra).
  apply (binary_pow2 24 (-149) ltac:(lia) 1 (-1)); [left; reflexivity | lia].
Qed.

Lemma binary32_two : binary32 2 = 2.
Proof.
  replace 2 with (IZR 1 * pow2 1) by (unfold pow2; simpl; lra).
  apply (binary_pow2 24 (-149) ltac:(lia) 1 1); [left; reflexivity | lia].
Qed.

Lemma binary32_minus_one : binary32 (-1) = -1.
Proof.
  replace (-1) with (IZR (-1) * pow2 0) by (unfold pow2; simpl; lra).
  apply (binary_pow2 24 (-149) ltac:(lia) (-1) 0); [right; reflexivity | lia].
Qed.

Lemma binary_minus_half (prec emin : Z) :
  (1 <= prec)%Z -> (emin <= -1)%Z -> binary prec emin (- (1/2)) = - (1/2).
Proof.
  intros Hp He.
  replace (- (1/2)) with (IZR (-1) * pow2 (-1)) by (unfold pow2; simpl; lra).
  apply (binary_pow2 prec emin Hp (-1) (-1)); [right; reflexivity | lia].
Qed.

Lemma binary32_tiny (e : Z) :
  (-149 <= e < -25)%Z ->
  binary32 (pow2 e) = pow2 e /\ binary32 (1 - pow2 e) = 1.
Proof.
  intros He. split.
  - rewrite <- (Rmult_1_l (pow2 e)).
    apply (binary_pow2 24 (-149) ltac:(lia) 1 e); [left; reflexivity | lia].
  - apply (binary_one_minus 24 (-149) ltac:(lia) ltac:(lia)); [lia|].
    split; [apply Rlt_le, pow2_pos | apply pow2_lt; lia].
Qed.

Section TwoSteps.
Variable wide : R -> R.
Hypothesis wide_is : wide = binary32 \/ wide = binary64.

Lemma wide_refines_binary32 : refines wide binary32.
Proof.
  destruct wide_is as [-> | ->];
    [exact binary32_refines | exact binary64_refines].
Qed.

Lemma wide_binary_rounding : rounding wide.
Proof.
  destruct wide_is as [-> | ->];
    [exact binary32_rounding | exact binary64_rounding].
Qed.

(** [Diffusion(2, 0.5, 2.0)]. *)
Lemma schedule_above_one :
  Diffusion_init_rnd wide binary32 2 (1/2) 2 32
  = Ok {| noise_steps := 2; beta_start := 1/2; beta_end := 2; img_size := 32;
          beta := [1/2; 2]; alpha := [1/2; -1];
          alpha_hat := [1/2; - (1/2)] |}.
Proof.
  rewrite (Diffusion_init_rnd_two wide binary32 binary32_rounding
             wide_refines_binary32).
  rewrite binary32_half, binary32_two.
  replace (1 - 1/2) with (1/2) by lra. replace (1 - 2) with (-1) by lra.
  rewrite binary32_half, binary32_minus_one.
  replace (1/2 * -1) with (- (1/2)) by lra.
  assert (W : wide (- (1/2)) = - (1/2)).
  { destruct wide_is as [-> | ->]; apply binary_minus_half; lia. }
  rewrite W. unfold binary32. rewrite binary_minus_half by lia. reflexivity.
Qed.

(** [Diffusion(2, 0.5, 1.0)]. *)
Lemma schedule_up_to_one :
  Diffusion_init_rnd wide binary32 2 (1/2) 1 32
  = Ok {| noise_steps := 2; beta_start := 1/2; beta_end := 1; img_size := 32;
          beta := [1/2; 1]; alpha := [1/2; 0];
          alpha_hat := [1/2; 0] |}.
Proof.
  destruct binary32_rounding as (_ & _ & R0 & R1).
  destruct wide_binary_rounding as (_ & _ & W0 & _).
  rewrite (Diffusion_init_rnd_two wide binary32 binary32_rounding
             wide_refines_binary32).
  rewrite binary32_half, R1.
  replace (1 - 1/2) with (1/2) by lra. replace (1 - 1) with 0 by lra.
  rewrite binary32_half, R0, Rmult_0_r, W0, R0. reflexivity.
Qed.

(** [Diffusion(2, 2**-30, 2**-29)]. *)
Lemma schedule_below_precision :
  Diffusion_init_rnd wide binary32 2 (pow2 (-30)) (pow2 (-29)) 32
  = Ok {| noise_steps := 2; beta_start := pow2 (-30); beta_end := pow2 (-29);
          img_size := 32;
          beta := [pow2 (-30); pow2 (-29)]; alpha := [1; 1];
          alpha_hat := [1; 1] |}.
Proof.
  destruct binary32_rounding as (_ & _ & _ & R1).
  destruct wide_binary_rounding as (_ & _ & _ & W1).
  destruct (binary32_tiny (-30) ltac:(lia)) as (A1 & A2).
  destruct (binary32_tiny (-29) ltac:(lia)) as (B1 & B2).
  rewrite (Diffusion_init_rnd_two wide binary32 binary32_rounding
             wide_refines_binary32).
  rewrite A1, B1, A2, B2, Rmult_1_l, W1, R1. reflexivity.
Qed.

End TwoSteps.

(** C6 (amended): in floating-point arithmetic, where the element type and
    the accumulator of the running product round every result, the
    constructor called with [T >= 1] builds three sequences of length [T]
    with [alpha[i]] the rounded [1 - beta[i]] and [alpha_hat[i]] the running
    product of [alpha[0..i]], each multiplication rounded;
    [alpha_hat[0] = alpha[0]], the rounded [1 - beta[0]]; when every stored
    [beta[i]] lies in [0, 1], [alpha_hat] is non-increasing and each of its
    elements lies in [0, 1]; a call of [noise_images], [sample_timesteps]
    or [sample] that returns leaves the object as it was. *)
Theorem derived_sequences_rounded
        (wide rnd : R -> R) (T : Z) (bs be : R) (size : nat) :
  rounding rnd -> rounding wide -> refines wide rnd -> (1 <= T)%Z ->
  exists d : Diffusion,
    Diffusion_init_rnd wide rnd T bs be size = Ok d /\
    (length (beta d) = Z.to_nat T /\
     length (alpha d) = Z.to_nat T /\
     length (alpha_hat d) = Z.to_nat T) /\
    (forall i, (i < Z.to_nat T)%nat ->
               nth i (alpha d) 0 = rnd (1 - nth i (beta d) 0)) /\
    (forall i, (i < Z.to_nat T)%nat ->
               nth i (alpha_hat d) 0 = prod_upto_rnd wide rnd (alpha d) i) /\
    (nth 0 (alpha_hat d) 0 = nth 0 (alpha d) 0 /\
     nth 0 (alpha d) 0 = rnd (1 - nth 0 (beta d) 0)) /\
    (Forall (fun b => 0 <= b <= 1) (beta d) ->
     (forall i j, (i < j < Z.to_nat T)%nat ->
                  nth j (alpha_hat d) 0 <= nth i (alpha_hat d) 0) /\
     (forall i, (i < Z.to_nat T)%nat -> 0 <= nth i (alpha_hat d) 0 <= 1)) /\
    (forall (ES : EntropySource) (P : Predictor) (w : world),
        self w = d ->
        (forall x t r w', noise_images x t w = Ok (r, w') -> self w' = d) /\
        (forall n r w', sample_timesteps n w = Ok (r, w') -> self w' = d) /\
        (forall n r w', sample n w = Ok (r, w') -> self w' = d)).
Proof.
  intros Hr Hw Href HT.
  unfold Diffusion_init_rnd, linspace_rnd.
  destruct (T <? 0)%Z eqn:E; [apply Z.ltb_lt in E; lia|]. cbn [rbind].
  eexists. split; [reflexivity|]. cbn [beta alpha alpha_hat].
  set (b := map (fun k => linspace_at_rnd rnd bs be T (Z.of_nat k))
                (seq 0 (Z.to_nat T))).
  set (a := map (fun x => rnd (1 - x)) b).
  assert (Lb : length b = Z.to_nat T)
    by (unfold b; rewrite length_map, length_seq; reflexivity).
  assert (La : length a = Z.to_nat T)
    by (unfold a; rewrite length_map; exact Lb).
  assert (Ha : forall i, (i < Z.to_nat T)%nat ->
                         nth i a 0 = rnd (1 - nth i b 0)).
  { intros i Hi. unfold a.
    rewrite (nth_indep _ 0 (rnd (1 - 0))) by (rewrite length_map, Lb; exact Hi).
    apply (map_nth (fun x => rnd (1 - x))). }
  assert (Hh : forall i, (i < Z.to_nat T)%nat ->
                         nth i (cumprod_rnd wide rnd a) 0
                         = prod_upto_rnd wide rnd a i).
  { intros i Hi. unfold cumprod_rnd, prod_upto_rnd.
    apply cumprod_from_rnd_nth. rewrite La. exact Hi. }
  destruct Hr as (Hm & Hi & H0 & H1). destruct Hw as (Wm & Wi & W0 & W1).
  split.
  { split; [exact Lb|]. split; [exact La|].
    unfold cumprod_rnd. rewrite length_cumprod_from_rnd. exact La. }
  split; [exact Ha|]. split; [exact Hh|].
  split.
  { split; [|apply Ha; lia].
    rewrite Hh by lia. unfold prod_upto_rnd.
    assert (Ha0 := Ha 0%nat ltac:(lia)).
    destruct a as [|a0 a']; [simpl in La; lia|].
    cbn [firstn fold_left nth] in *.
    rewrite Rmult_1_l, Ha0, Href, Hi. reflexivity. }
  split.
  { intros Hb.
    assert (Hu : Forall (fun v => 0 <= v <= 1) a).
    { unfold a. apply Forall_forall. intros v Hv.
      apply in_map_iff in Hv. destruct Hv as (x & <- & Hx).
      rewrite Forall_forall in Hb. specialize (Hb x Hx).
      apply rounding_unit; [repeat split; assumption | lra]. }
    split.
    - intros i j Hij. unfold cumprod_rnd.
      apply (cumprod_from_rnd_monotone wide rnd
               (conj Hm (conj Hi (conj H0 H1)))
               (conj Wm (conj Wi (conj W0 W1))) a 1 W1 ltac:(lra) Hu).
      rewrite La. exact Hij.
    - intros i Hlt. unfold cumprod_rnd.
      rewrite <- H1 at 3.
      apply (cumprod_from_rnd_bounded wide rnd
               (conj Hm (conj Hi (conj H0 H1)))
               (conj Wm (conj Wi (conj W0 W1))) a 1 W1 ltac:(lra) Hu).
      rewrite La. exact Hlt. }
  intros ES P w Hself. split; [|split].
  - intros x t r w' H. apply noise_images_inv in H.
    destruct H as (Hs & _). congruence.
  - intros n r w' H. apply sample_timesteps_inv in H.
    destruct H as (Hs & _). congruence.
  - intros n r w' H. apply sample_inv in H.
    destruct H as (Hs & _). congruence.
Qed.

Lemma derived_sequences_rounded_witness :
  exists d : Diffusion,
    Diffusion_init_rnd binary64 binary32 2 (pow2 (-30)) (pow2 (-29)) 32
    = Ok d /\
    length (alpha_hat d) = 2%nat /\
    nth 0 (alpha_hat d) 0 = binary32 (1 - nth 0 (beta d) 0) /\
    nth 1 (alpha_hat d) 0 <= nth 0 (alpha_hat d) 0 /\
    0 <= nth 1 (alpha_hat d) 0 <= 1.
Proof.
  destruct (derived_sequences_rounded binary64 binary32 2
              (pow2 (-30)) (pow2 (-29)) 32
              binary32_rounding binary64_rounding binary64_refines)
    as (d & Hd & (_ & _ & Hlen) & _ & _ & (Hh & Ha) & Hord & _).
  - lia.
  - assert (Eb : beta d = [pow2 (-30); pow2 (-29)]).
    { pose proof (schedule_below_precision binary64 (or_intror eq_refl)) as S.
      rewrite S in Hd. injection Hd as Hd. rewrite <- Hd. reflexivity. }
    destruct Hord as (Hdec & Hrange).
    + rewrite Eb.
      apply Forall_cons; [|apply Forall_cons; [|apply Forall_nil]];
        (split; [apply Rlt_le, pow2_pos
                | apply Rlt_le; apply (pow2_lt _ 0); lia]).
    + exists d. split; [exact Hd|]. split; [exact Hlen|].
      split; [rewrite Hh; exact Ha|].
      split; [apply Hdec | apply Hrange]; change (Z.to_nat 2) with 2%nat; lia.
Defined.

(** C6 as stated fails on valid parameters ([T >= 1] and
    [0 < beta_start < beta_end]), in single precision with either
    accumulator.  [Diffusion(2, 0.5, 2.0)]: the second entry of [alpha_hat]
    is negative.  [Diffusion(2, 0.5, 1.0)]: it is 0.
    [Diffusion(2, 2**-30, 2**-29)], whose bounds lie below 1: [alpha] and
    [alpha_hat] are [[1; 1]], so [alpha_hat] does not decrease and
    [alpha[0]] is not [1 - beta[0]]. *)
Lemma derived_sequences_counterexample :
  Forall (fun wide : R -> R =>
  (exists d : Diffusion,
      Diffusion_init_rnd wide binary32 2 (1/2) 2 32 = Ok d /\
      (1 <= 2)%Z /\ 0 < 1/2 /\ 1/2 < 2 /\
      nth 1 (alpha_hat d) 0 = - (1/2) /\
      ~ (0 < nth 1 (alpha_hat d) 0 <= 1)) /\
  (exists d : Diffusion,
      Diffusion_init_rnd wide binary32 2 (1/2) 1 32 = Ok d /\
      (1 <= 2)%Z /\ 0 < 1/2 /\ 1/2 < 1 /\
      nth 1 (alpha_hat d) 0 = 0 /\
      ~ (0 < nth 1 (alpha_hat d) 0 <= 1)) /\
  (exists d : Diffusion,
      Diffusion_init_rnd wide binary32 2 (pow2 (-30)) (pow2 (-29)) 32 = Ok d /\
      (1 <= 2)%Z /\ 0 < pow2 (-30) /\ pow2 (-30) < pow2 (-29) /\
      pow2 (-29) < 1 /\
      alpha_hat d = [1; 1] /\
      ~ (nth 1 (alpha_hat d) 0 < nth 0 (alpha_hat d) 0) /\
      nth 0 (alpha d) 0 <> 1 - nth 0 (beta d) 0))
    [binary32; binary64].
Proof.
  apply Forall_forall. intros wide Hin.
  assert (Hw : wide = binary32 \/ wide = binary64).
  { destruct Hin as [<- | [<- | []]]; [left | right]; reflexivity. }
  clear Hin. split; [|split].
  - eexists. split; [apply (schedule_above_one wide Hw)|].
    cbn [alpha_hat nth].
    split; [lia|]. split; [lra|]. split; [lra|]. split; [reflexivity|]. lra.
  - eexists. split; [apply (schedule_up_to_one wide Hw)|].
    cbn [alpha_hat nth].
    split; [lia|]. split; [lra|]. split; [lra|]. split; [reflexivity|]. lra.
  - eexists. split; [apply (schedule_below_precision wide Hw)|].
    cbn [alpha_hat alpha beta nth].
    pose proof (pow2_pos (-30)) as P.
    split; [lia|]. split; [exact P|].
    split; [apply pow2_lt; lia|].
    split; [apply (pow2_lt (-29) 0); lia|].
    split; [reflexivity|]. split; lra.
Qed.


(** C7 (amended): the constructor checks none of [T < 1],
    [beta_start <= 0], [beta_end <= 0], [beta_start >= beta_end]; it returns
    an object for every [T >= 0] and every pair of bounds, with a schedule
    of [T] entries, and it raises only when [T < 0], where [linspace]
    rejects the number of steps with a [RuntimeError]. *)
Theorem construction_unchecked
        (T : Z) (bs be : R) (size : nat) :
  match Diffusion_init T bs be size with
  | Ok d => (0 <= T)%Z /\ noise_steps d = T /\
            beta_start d = bs /\ beta_end d = be /\ img_size d = size /\
            length (beta d) = Z.to_nat T
  | Raise e => (T < 0)%Z /\ e = RuntimeError
  end.
Proof.
  destruct (Z.ltb_spec T 0) as [Hneg|Hpos].
  - unfold Diffusion_init, prepare_noise_schedule.
    rewrite linspace_negative by exact Hneg. simpl. auto.
  - rewrite Diffusion_init_ok by exact Hpos.
    repeat split; try reflexivity; [exact Hpos | apply built_lengths].
Qed.

(** C7 as stated fails: bounds in the wrong order are accepted. *)
Lemma construction_counterexample :
  1/10000 <= 2/100 /\
  exists d : Diffusion,
    Diffusion_init 10 (2/100) (1/10000) 256 = Ok d /\
    nth 0 (beta d) 0 = 2/100.
Proof.
  split; [lra|].
  exists (built 10 (2/100) (1/10000) 256).
  split; [reflexivity|].
  unfold built, linspace_at. simpl. lra.
Qed.

(** C8 (amended): [noise_images x t] raises [IndexError], before any draw,
    when some [t_i] has [t_i >= T] or [t_i < -T]; a negative [t_i] with
    [-T <= t_i < 0] is accepted and reads schedule entry [T + t_i]. *)
Theorem noise_images_index_check
        `{ES : EntropySource}
        (T : Z) (bs be : R) (size : nat) (d : Diffusion)
        (w : world) (x : tensor) (t : list Z) :
  Diffusion_init T bs be size = Ok d ->
  self w = d ->
  (Exists (fun i => i < - T \/ T <= i)%Z t ->
   noise_images x t w = Raise IndexError) /\
  (Forall (fun i => - T <= i < T)%Z t ->
   length x = length t ->
   exists (eps : tensor) (w' : world),
     noise_images x t w =
     Ok ((map3 (fun ti xr er =>
                  map2 (spec_forward
                          (nth (Z.to_nat (if (ti <? 0)%Z then T + ti else ti))
                               (alpha_hat d) 0)) xr er)
               t x eps, eps), w')).
Proof.
  intros Hd Hw.
  apply Diffusion_init_inv in Hd. destruct Hd as [HT ->].
  destruct (built_lengths T bs be size) as (_ & _ & Hlen).
  assert (Hlen' : Z.of_nat (length (alpha_hat (self w))) = T)
    by (rewrite Hw, Hlen; lia).
  split.
  - intros Ht. apply noise_images_index_error. rewrite Hlen'. exact Ht.
  - intros Ht Hx.
    exists (fst (draw_samples (shape x) (rng w))),
           (log (Randn (shape x))
                (with_rng (snd (draw_samples (shape x) (rng w))) w)).
    rewrite noise_images_run.
    + do 3 f_equal. apply map3_ext_in. intros ti Hti.
      rewrite Forall_forall in Ht. specialize (Ht ti Hti).
      assert (E : (ti mod T = if ti <? 0 then T + ti else ti)%Z).
      { destruct (Z.ltb_spec ti 0).
        - symmetry. apply (Z.mod_unique_pos ti T (-1) (T + ti)); lia.
        - apply Z.mod_small. lia. }
      rewrite Hlen', Hw, E. reflexivity.
    + rewrite Hlen'. exact Ht.
    + exact Hx.
Qed.

Lemma noise_images_index_check_witness :
  noise_images (ES := zero_source) [[1]] [3%Z]
               (demo_world (built 3 (1/10) (2/10) 1) true)
  = Raise IndexError.
Proof.
  apply (proj1 (noise_images_index_check
                  (ES := zero_source) 3 (1/10) (2/10) 1
                  (built 3 (1/10) (2/10) 1)
                  (demo_world (built 3 (1/10) (2/10) 1) true)
                  [[1]] [3%Z] eq_refl eq_refl)).
  constructor. lia.
Defined.

(** C8 as stated fails: the negative timestep [-1] is not rejected, the
    call returns a result computed from the last schedule entry. *)
Lemma noise_images_negative_timestep :
  exists w',
    noise_images (ES := zero_source) [[1]] [(-1)%Z]
                 (demo_world (built 3 (1/10) (2/10) 1) true)
    = Ok ([[spec_forward (nth 2 (alpha_hat (built 3 (1/10) (2/10) 1)) 0) 1 0]],
          [[0]], w').
Proof.
  eexists. unfold noise_images, bind, get_self, lift, randn_like, randn, ret.
  simpl. reflexivity.
Qed.

(** C9 (amended): for [T >= 2] and every [n], [sample_timesteps n] returns
    exactly [n] integers, the [n] successive draws of the generator from the
    half-open range [1, T), so each lies in [1, T - 1]; it records one
    [randint] call; for [T = 2] every value is 1. *)
Theorem sample_timesteps_range
        `{ES : EntropySource}
        (w : world) (n : nat) :
  (2 <= noise_steps (self w))%Z ->
  exists (ts : list Z) (w' : world),
    sample_timesteps n w = Ok (ts, w') /\
    ts = fst (draw_ints 1 (noise_steps (self w)) n (rng w)) /\
    length ts = n /\
    Forall (fun v => 1 <= v <= noise_steps (self w) - 1)%Z ts /\
    trace w' = trace w ++ [Randint 1 (noise_steps (self w)) n] /\
    (noise_steps (self w) = 2%Z -> Forall (fun v => v = 1%Z) ts).
Proof.
  intros HT.
  pose proof (draw_ints_range 1 (noise_steps (self w)) n (rng w) ltac:(lia))
    as Hrange.
  exists (fst (draw_ints 1 (noise_steps (self w)) n (rng w))),
         (log (Randint 1 (noise_steps (self w)) n)
              (with_rng (snd (draw_ints 1 (noise_steps (self w)) n (rng w))) w)).
  split; [apply sample_timesteps_run; lia|].
  split; [reflexivity|].
  split; [apply length_draw_ints|].
  split; [|split].
  - eapply Forall_impl; [|exact Hrange]. simpl. intros; lia.
  - reflexivity.
  - intros H2. eapply Forall_impl; [|exact Hrange]. simpl. intros; lia.
Qed.

Lemma sample_timesteps_range_witness :
  exists ts w',
    sample_timesteps (ES := zero_source) 4
                     (demo_world (built 2 (1/10) (2/10) 1) true) = Ok (ts, w')
    /\ length ts = 4%nat
    /\ Forall (fun v => v = 1%Z) ts.
Proof.
  destruct (sample_timesteps_range
              (ES := zero_source)
              (demo_world (built 2 (1/10) (2/10) 1) true) 4)
    as (ts & w' & Hrun & _ & Hlen & _ & _ & Hone).
  - simpl. lia.
  - exists ts, w'. split; [exact Hrun|]. split; [exact Hlen|].
    apply Hone. reflexivity.
Defined.

(** C9 as stated fails for [T = 1]: the range [1, T) is empty and the call
    raises instead of returning [n] integers. *)
Lemma sample_timesteps_single_step :
  exists d : Diffusion,
    Diffusion_init 1 (1/10000) (2/100) 256 = Ok d /\
    sample_timesteps (ES := zero_source) 1 (demo_world d true)
    = Raise RuntimeError.
Proof.
  exists (built 1 (1/10000) (2/100) 256).
  split; reflexivity.
Qed.

(** * Further properties of the code *)

(** ** The training inputs *)

Lemma shape_map3_rows {A} (f : A -> R -> R -> R) (t : list A) (x eps : tensor) :
  length t = length x -> shape eps = shape x ->
  shape (map3 (fun ti xr er => map2 (f ti) xr er) t x eps) = shape x.
Proof.
  revert x eps; induction t as [|ti t IH]; intros [|xr x] [|er eps] Ht He;
    simpl in *; try discriminate; [reflexivity|].
  injection He as He1 He2.
  rewrite length_map2 by (symmetry; exact He1).
  f_equal. apply IH; congruence.
Qed.

(** X1: on an object built with [T >= 2], the two statements of [train]
    that prepare a batch always return: the timesteps drawn by
    [sample_timesteps] are valid indices for [noise_images], all in
    [1, T - 1], so entry 0 of the schedule is never read; the noised batch
    and the noise have the shape of the images, and the generator is used
    twice, for the integers first and for the noise next. *)
Theorem training_inputs_run
        `{ES : EntropySource}
        (T : Z) (bs be : R) (size : nat) (d : Diffusion)
        (w : world) (images : tensor) :
  Diffusion_init T bs be size = Ok d ->
  self w = d ->
  (2 <= T)%Z ->
  exists (t : list Z) (noisy eps : tensor) (w' : world),
    training_inputs images w = Ok ((t, (noisy, eps)), w') /\
    length t = length images /\
    Forall (fun i => 1 <= i <= T - 1)%Z t /\
    noisy = map3 (fun ti xr er =>
                    map2 (spec_forward (nth (Z.to_nat ti) (alpha_hat d) 0)) xr er)
                 t images eps /\
    shape noisy = shape images /\
    shape eps = shape images /\
    trace w' = trace w ++ [Randint 1 T (length images); Randn (shape images)] /\
    self w' = self w /\ training w' = training w.
Proof.
  intros Hd Hw HT.
  apply Diffusion_init_inv in Hd. destruct Hd as [_ Hd].
  assert (HTd : noise_steps (self w) = T) by (rewrite Hw, Hd; reflexivity).
  assert (Hlen : Z.of_nat (length (alpha_hat (self w))) = T).
  { rewrite Hw, Hd.
    rewrite (proj2 (proj2 (built_lengths T bs be size))). lia. }
  set (n := length images).
  set (t := fst (draw_ints 1 T n (rng w))).
  set (w1 := log (Randint 1 T n) (with_rng (snd (draw_ints 1 T n (rng w))) w)).
  assert (Ht : sample_timesteps n w = Ok (t, w1)).
  { rewrite sample_timesteps_run by lia. rewrite HTd. reflexivity. }
  assert (Hrange : Forall (fun i => 1 <= i < T)%Z t)
    by (apply draw_ints_range; lia).
  assert (Htl : length t = n) by apply length_draw_ints.
  set (eps := fst (draw_samples (shape images) (rng w1))).
  assert (Heps : shape eps = shape images) by apply shape_draw_samples.
  exists t,
         (map3 (fun ti xr er =>
                  map2 (spec_forward (nth (Z.to_nat ti) (alpha_hat d) 0)) xr er)
               t images eps),
         eps,
         (log (Randn (shape images))
              (with_rng (snd (draw_samples (shape images) (rng w1))) w1)).
  split.
  { unfold training_inputs. fold n. unfold bind at 1. rewrite Ht.
    unfold bind at 1. rewrite noise_images_run.
    - unfold ret. do 4 f_equal. apply map3_ext_in. intros ti Hti.
      rewrite Forall_forall in Hrange. specialize (Hrange ti Hti).
      change (self w1) with (self w).
      rewrite Hlen, Z.mod_small by lia. rewrite Hw. reflexivity.
    - change (self w1) with (self w). rewrite Hlen.
      eapply Forall_impl; [|exact Hrange]. simpl. intros; lia.
    - symmetry. exact Htl. }
  split; [exact Htl|].
  split; [eapply Forall_impl; [|exact Hrange]; simpl; intros; lia|].
  split; [reflexivity|].
  split; [apply shape_map3_rows; [exact Htl | exact Heps]|].
  split; [exact Heps|].
  split; [simpl; rewrite <- app_assoc; reflexivity|].
  split; reflexivity.
Qed.

Lemma training_inputs_run_witness :
  exists t noisy eps w',
    training_inputs (ES := zero_source) [[1; 2]; [3; 4]]
                    (demo_world (built 1000 (1/10000) (2/100) 32) true)
    = Ok ((t, (noisy, eps)), w')
    /\ length t = 2%nat
    /\ Forall (fun i => 1 <= i <= 999)%Z t
    /\ shape noisy = [2%nat; 2%nat].
Proof.
  destruct (training_inputs_run
              (ES := zero_source) 1000 (1/10000) (2/100) 32
              (built 1000 (1/10000) (2/100) 32)
              (demo_world (built 1000 (1/10000) (2/100) 32) true)
              [[1; 2]; [3; 4]])
    as (t & noisy & eps & w' & Hrun & Hlen & Hrange & _ & Hshape & _).
  - reflexivity.
  - reflexivity.
  - lia.
  - exists t, noisy, eps, w'.
    split; [exact Hrun|]. split; [exact Hlen|].
    split; [exact Hrange | exact Hshape].
Defined.

(** ** Batch sizes and errors of [noise_images] *)

Lemma per_sample_single (op : R -> R -> R) (u : R) (x : tensor) :
  per_sample op [u] x = Ok (map (map (op u)) x).
Proof.
  unfold per_sample, broadcast.
  destruct (Nat.eqb_spec (length [u]) (length x)) as [E|NE]; [|reflexivity].
  destruct x as [|x0 [|x1 x]]; simpl in E; try discriminate. reflexivity.
Qed.

Lemma per_sample_one_sample (op : R -> R -> R) (c : vec) (x0 : list R) :
  per_sample op c [x0] = Ok (map (fun ci => map (op ci) x0) c).
Proof.
  unfold per_sample, broadcast.
  destruct (Nat.eqb_spec (length c) (length [x0])) as [E|NE].
  - destruct c as [|u [|u' c]]; simpl in E; try discriminate. reflexivity.
  - destruct c as [|u [|u' c]]; reflexivity.
Qed.

Lemma per_sample_mismatch (op : R -> R -> R) (c : vec) (x : tensor) :
  length c <> length x -> length c <> 1%nat -> length x <> 1%nat ->
  per_sample op c x = Raise RuntimeError.
Proof.
  intros H H1 H2. unfold per_sample, broadcast.
  destruct (Nat.eqb_spec (length c) (length x)) as [E|_]; [contradiction|].
  destruct c as [|u [|u' c]]; destruct x as [|x0 [|x1 x]]; simpl in *;
    try reflexivity; contradiction.
Qed.

Lemma map2_rows_one_timestep (u v : R) (x eps : tensor) :
  map2 (map2 Rplus) (map (map (Rmult u)) x) (map (map (Rmult v)) eps)
  = map2 (map2 (fun xv ev => u * xv + v * ev)) x eps.
Proof.
  revert eps; induction x as [|xr x IH]; intros [|er eps]; simpl;
    try reflexivity.
  rewrite IH, map2_rows_forward. reflexivity.
Qed.

Lemma forward_mix_one_timestep (u v : R) (x eps : tensor) :
  shape eps = shape x ->
  forward_mix [u] [v] x eps
  = Ok (map2 (map2 (fun xv ev => u * xv + v * ev)) x eps).
Proof.
  intros He. unfold forward_mix.
  rewrite !per_sample_single. simpl rbind.
  rewrite pointwise_same_shape
    by (rewrite !shape_map_map; symmetry; exact He).
  rewrite map2_rows_one_timestep. reflexivity.
Qed.

Lemma forward_mix_one_sample (g : Z -> R) (t : list Z) (x0 e0 : list R) :
  length e0 = length x0 ->
  forward_mix (map sqrt (map g t))
              (map sqrt (map (fun a => 1 - a) (map g t))) [x0] [e0]
  = Ok (map (fun ti => map2 (spec_forward (g ti)) x0 e0) t).
Proof.
  intros He. unfold forward_mix.
  rewrite !per_sample_one_sample. simpl rbind.
  rewrite pointwise_same_shape.
  - f_equal. rewrite !map_map.
    induction t as [|ti t IH]; simpl; [reflexivity|].
    rewrite IH, map2_rows_forward. reflexivity.
  - unfold shape. rewrite !map_map.
    induction t as [|ti t IH]; simpl; [reflexivity|].
    rewrite IH, !length_map, He. reflexivity.
Qed.

Lemma index_select_inv (a : vec) (t : list Z) :
  match index_select a t with
  | Ok v => Forall (fun i => - Z.of_nat (length a) <= i < Z.of_nat (length a))%Z t
            /\ length v = length t
  | Raise e => e = IndexError /\
               Exists (fun i => i < - Z.of_nat (length a)
                                \/ Z.of_nat (length a) <= i)%Z t
  end.
Proof.
  unfold index_select.
  induction t as [|i t IH]; simpl; [split; [constructor | reflexivity]|].
  destruct ((- Z.of_nat (length a) <=? i) && (i <? Z.of_nat (length a)))%Z eqn:E.
  - apply andb_true_iff in E. destruct E as [E1 E2].
    apply Z.leb_le in E1. apply Z.ltb_lt in E2. simpl.
    destruct (collect _) as [v|e]; simpl.
    + destruct IH as [IH1 IH2]. split; [constructor; [lia | exact IH1]|].
      simpl. congruence.
    + destruct IH as [IH1 IH2]. split; [exact IH1|]. right. exact IH2.
  - apply andb_false_iff in E. simpl. split; [reflexivity|]. left.
    destruct E as [E|E]; [apply Z.leb_gt in E | apply Z.ltb_ge in E]; lia.
Qed.

Section NoiseImagesTable.
Context `{ES : EntropySource}.

Lemma noise_images_mismatch (x : tensor) (t : list Z) (w : world) :
  Forall (fun i => - Z.of_nat (length (alpha_hat (self w))) <= i
                   < Z.of_nat (length (alpha_hat (self w))))%Z t ->
  length t <> length x -> length t <> 1%nat -> length x <> 1%nat ->
  noise_images x t w = Raise RuntimeError.
Proof.
  intros Ht H H1 H2.
  unfold noise_images, bind, get_self, lift, randn_like, randn.
  rewrite (index_select_in_range _ _ Ht).
  destruct (draw_samples (shape x) (rng w)) as [eps g'].
  unfold forward_mix.
  rewrite per_sample_mismatch by (rewrite ?length_map; assumption).
  reflexivity.
Qed.

Lemma noise_images_returns (x : tensor) (t : list Z) (w : world) :
  Forall (fun i => - Z.of_nat (length (alpha_hat (self w))) <= i
                   < Z.of_nat (length (alpha_hat (self w))))%Z t ->
  length t = length x \/ length t = 1%nat \/ length x = 1%nat ->
  exists r w', noise_images x t w = Ok (r, w').
Proof.
  intros Ht Hsz.
  destruct Hsz as [H|[H|H]].
  - rewrite noise_images_run by (try assumption; symmetry; assumption).
    eauto.
  - destruct t as [|t0 [|t1 t]]; simpl in H; try discriminate.
    unfold noise_images, bind, get_self, lift, randn_like, randn, ret.
    rewrite (index_select_in_range _ _ Ht).
    pose proof (shape_draw_samples (shape x) (rng w)) as Hs.
    destruct (draw_samples (shape x) (rng w)) as [eps g'].
    simpl in Hs |- *.
    rewrite (forward_mix_one_timestep _ _ x eps Hs). eauto.
  - destruct x as [|x0 [|x1 x]]; simpl in H; try discriminate.
    unfold noise_images, bind, get_self, lift, randn_like, randn, ret.
    rewrite (index_select_in_range _ _ Ht).
    pose proof (shape_draw_samples (shape [x0]) (rng w)) as Hs.
    destruct (draw_samples (shape [x0]) (rng w)) as [eps g'].
    simpl in Hs.
    destruct eps as [|e0 [|e1 eps]]; simpl in Hs; try discriminate.
    injection Hs as Hs.
    rewrite (forward_mix_one_sample
               (fun i => nth (Z.to_nat (i mod Z.of_nat (length (alpha_hat (self w)))))
                             (alpha_hat (self w)) 0) t x0 e0 Hs).
    eauto.
Qed.

End NoiseImagesTable.

(** X2: [noise_images] broadcasts over the batch dimension.  Given a single
    valid timestep, it noises every sample of a batch of any size at that
    timestep.  Given a batch of a single sample and any number of valid
    timesteps, it returns one noised copy of the sample per timestep, all
    built from the same noise, and the noise it returns still has a single
    sample. *)
Theorem noise_images_broadcasts
        `{ES : EntropySource}
        (T : Z) (bs be : R) (size : nat) (d : Diffusion) (w : world) :
  Diffusion_init T bs be size = Ok d ->
  self w = d ->
  (forall (x : tensor) (t0 : Z),
      (0 <= t0 < T)%Z ->
      exists w',
        noise_images x [t0] w =
        Ok ((map2 (map2 (spec_forward (nth (Z.to_nat t0) (alpha_hat d) 0)))
                  x (fst (draw_samples (shape x) (rng w))),
             fst (draw_samples (shape x) (rng w))), w')) /\
  (forall (x0 : list R) (t : list Z),
      Forall (fun i => 0 <= i < T)%Z t ->
      exists w',
        noise_images [x0] t w =
        Ok ((map (fun ti =>
                    map2 (spec_forward (nth (Z.to_nat ti) (alpha_hat d) 0))
                         x0 (fst (draw_normals (length x0) (rng w)))) t,
             [fst (draw_normals (length x0) (rng w))]), w')).
Proof.
  intros Hd Hw.
  apply Diffusion_init_inv in Hd. destruct Hd as [HT ->].
  destruct (built_lengths T bs be size) as (_ & _ & Hlen).
  assert (Hlen' : Z.of_nat (length (alpha_hat (self w))) = T)
    by (rewrite Hw, Hlen; lia).
  split.
  - intros x t0 Ht0.
    unfold noise_images, bind, get_self, lift, randn_like, randn, ret.
    rewrite index_select_nonneg by (repeat constructor; lia).
    pose proof (shape_draw_samples (shape x) (rng w)) as Hs.
    destruct (draw_samples (shape x) (rng w)) as [eps g'].
    simpl in Hs |- *.
    rewrite (forward_mix_one_timestep _ _ x eps Hs).
    rewrite Hw. eexists. reflexivity.
  - intros x0 t Ht.
    unfold noise_images, bind, get_self, lift, randn_like, randn, ret.
    rewrite index_select_nonneg
      by (rewrite Hlen'; exact Ht).
    pose proof (length_draw_normals (length x0) (rng w)) as Hs.
    simpl draw_samples.
    destruct (draw_normals (length x0) (rng w)) as [e0 g'].
    simpl in Hs |- *.
    rewrite (forward_mix_one_sample
               (fun i => nth (Z.to_nat i) (alpha_hat (self w)) 0) t x0 e0 Hs).
    rewrite Hw. eexists. reflexivity.
Qed.

Lemma noise_images_broadcasts_witness :
  exists w',
    noise_images (ES := zero_source) [[1; 2]] [1%Z; 2%Z; 1%Z]
                 (demo_world (built 3 (1/10) (2/10) 1) true)
    = Ok ((map (fun ti =>
                  map2 (spec_forward
                          (nth (Z.to_nat ti)
                               (alpha_hat (built 3 (1/10) (2/10) 1)) 0))
                       [1; 2] [0; 0]) [1%Z; 2%Z; 1%Z],
           [[0; 0]]), w').
Proof.
  apply (proj2 (noise_images_broadcasts
                  (ES := zero_source) 3 (1/10) (2/10) 1
                  (built 3 (1/10) (2/10) 1)
                  (demo_world (built 3 (1/10) (2/10) 1) true)
                  eq_refl eq_refl) [1; 2] [1%Z; 2%Z; 1%Z]).
  repeat constructor; lia.
Defined.

(** X3: the outcomes of [noise_images] on a constructor-built object.  It
    returns exactly when every timestep lies in [-T, T - 1] and the two
    batch sizes agree or one of them is 1; it raises [IndexError] exactly
    when some timestep is out of that range, whatever the batch sizes; it
    raises [RuntimeError] exactly when the timesteps are in range and the
    batch sizes do not broadcast. *)
Theorem noise_images_outcomes
        `{ES : EntropySource}
        (T : Z) (bs be : R) (size : nat) (d : Diffusion)
        (w : world) (x : tensor) (t : list Z) :
  Diffusion_init T bs be size = Ok d ->
  self w = d ->
  match noise_images x t w with
  | Ok _ =>
      Forall (fun i => - T <= i < T)%Z t /\
      (length t = length x \/ length t = 1%nat \/ length x = 1%nat)
  | Raise e =>
      (e = IndexError /\ Exists (fun i => i < - T \/ T <= i)%Z t) \/
      (e = RuntimeError /\ Forall (fun i => - T <= i < T)%Z t /\
       length t <> length x /\ length t <> 1%nat /\ length x <> 1%nat)
  end.
Proof.
  intros Hd Hw.
  apply Diffusion_init_inv in Hd. destruct Hd as [HT ->].
  destruct (built_lengths T bs be size) as (_ & _ & Hlen).
  assert (Hlen' : Z.of_nat (length (alpha_hat (self w))) = T)
    by (rewrite Hw, Hlen; lia).
  pose proof (index_select_inv (alpha_hat (self w)) t) as Hidx.
  rewrite Hlen' in Hidx.
  destruct (index_select (alpha_hat (self w)) t) as [v|e] eqn:E.
  - destruct Hidx as [Hin _].
    assert (Hin' : Forall (fun i => - Z.of_nat (length (alpha_hat (self w))) <= i
                                    < Z.of_nat (length (alpha_hat (self w))))%Z t)
      by (rewrite Hlen'; exact Hin).
    destruct (Nat.eq_dec (length t) (length x)) as [H|H];
      [|destruct (Nat.eq_dec (length t) 1) as [H1|H1];
        [|destruct (Nat.eq_dec (length x) 1) as [H2|H2]]].
    + destruct (noise_images_returns x t w Hin' (or_introl H)) as (r & w' & ->).
      auto.
    + destruct (noise_images_returns x t w Hin' (or_intror (or_introl H1)))
        as (r & w' & ->). auto.
    + destruct (noise_images_returns x t w Hin' (or_intror (or_intror H2)))
        as (r & w' & ->). auto.
    + rewrite (noise_images_mismatch x t w Hin' H H1 H2). right. auto.
  - destruct Hidx as [-> Hout].
    rewrite noise_images_index_error by (rewrite Hlen'; exact Hout).
    left. auto.
Qed.

Lemma noise_images_outcomes_witness :
  noise_images (ES := zero_source) [[1]; [2]; [3]] [0%Z; 1%Z]
               (demo_world (built 3 (1/10) (2/10) 1) true)
  = Raise RuntimeError.
Proof.
  pose proof (noise_images_outcomes
                (ES := zero_source) 3 (1/10) (2/10) 1
                (built 3 (1/10) (2/10) 1)
                (demo_world (built 3 (1/10) (2/10) 1) true)
                [[1]; [2]; [3]] [0%Z; 1%Z] eq_refl eq_refl) as H.
  destruct (noise_images [[1]; [2]; [3]] [0%Z; 1%Z]
                         (demo_world (built 3 (1/10) (2/10) 1) true))
    as [r|e].
  - destruct H as [_ [H|[H|H]]]; discriminate H.
  - destruct H as [[_ H]|[-> _]]; [|reflexivity].
    exfalso. inversion H as [? ? H0|? ? H0]; subst; [lia|].
    inversion H0 as [? ? H1|? ? H1]; subst; [lia|]. inversion H1.
Defined.

(** ** [sample] with no step to run, and the draws of [sample] *)

Lemma range_empty (lo hi : Z) : (hi <= lo)%Z -> range lo hi = [].
Proof.
  intros H. unfold range.
  replace (Z.to_nat (hi - lo)) with 0%nat by lia. reflexivity.
Qed.





Section SampleDraws.
Context `{ES : EntropySource} `{P : Predictor}.



End SampleDraws.

(** X4: on an object with [noise_steps <= 1] the loop of [sample] has no
    step to run: the call returns without ever calling the model, and its
    result is the display conversion of the initial noise; the model is
    still switched to evaluation mode and back to training mode. *)
Theorem sample_without_steps
        `{ES : EntropySource} `{P : Predictor}
        (w : world) (n : nat) :
  (noise_steps (self w) <= 1)%Z ->
  exists w',
    sample n w = Ok (to_display (fst (sample_start n w)), w') /\
    trace w'
    = trace w ++ [Eval;
                  Randn (repeat (3 * img_size (self w) * img_size (self w))%nat n);
                  Train] /\
    forward_calls (trace w') = forward_calls (trace w) /\
    training w' = true.
Proof.
  intros HT.
  destruct (sample_start_facts n w) as (_ & Hself & _ & Htr).
  exists (log Train (with_training true (snd (sample_start n w)))).
  split.
  - rewrite sample_unfold. unfold sample_loop, bind, get_self.
    rewrite Hself, range_empty by lia. reflexivity.
  - cbn [trace log with_training training]. rewrite Htr, <- app_assoc.
    split; [reflexivity|]. split; [|reflexivity].
    rewrite forward_calls_app. simpl. apply app_nil_r.
Qed.

Lemma sample_without_steps_witness :
  exists w',
    sample (ES := zero_source) (P := echo_model) 2
           (demo_world (built 1 (1/10) (2/10) 1) true)
    = Ok (to_display
            (fst (sample_start 2 (demo_world (built 1 (1/10) (2/10) 1) true))), w')
    /\ forward_calls (trace w') = [].
Proof.
  destruct (sample_without_steps
              (ES := zero_source) (P := echo_model)
              (demo_world (built 1 (1/10) (2/10) 1) true) 2)
    as (w' & Hrun & _ & Hcalls & _).
  - simpl. lia.
  - exists w'. split; [exact Hrun | exact Hcalls].
Defined.



(** ** The display conversion *)

Lemma clamp_monotone (u v : R) : u <= v -> clamp (-1) 1 u <= clamp (-1) 1 v.
Proof.
  intros H. unfold clamp, Rmin, Rmax.
  repeat (destruct (Rle_dec _ _)); lra.
Qed.

Lemma spec_pixel_monotone (u v : R) : u <= v -> (spec_pixel u <= spec_pixel v)%Z.
Proof.
  intros H. unfold spec_pixel. apply Int_part_monotone.
  pose proof (clamp_monotone u v H) as Hc. unfold clamp in Hc. lra.
Qed.

Lemma spec_pixel_low (v : R) : v <= -1 -> spec_pixel v = 0%Z.
Proof.
  intros H. unfold spec_pixel.
  replace (Rmin (Rmax v (-1)) 1) with (-1).
  - replace ((-1 + 1) / 2 * 255) with (IZR 0) by (simpl; lra).
    symmetry. apply Int_part_spec. simpl. lra.
  - unfold Rmin, Rmax. repeat (destruct (Rle_dec _ _)); lra.
Qed.

Lemma spec_pixel_high (v : R) : 1 <= v -> spec_pixel v = 255%Z.
Proof.
  intros H. unfold spec_pixel.
  replace (Rmin (Rmax v (-1)) 1) with 1.
  - replace ((1 + 1) / 2 * 255) with (IZR 255) by lra.
    symmetry. apply Int_part_spec. lra.
  - unfold Rmin, Rmax. repeat (destruct (Rle_dec _ _)); lra.
Qed.

Lemma spec_pixel_inside (v : R) :
  -1 <= v <= 1 -> spec_pixel v = Int_part ((v + 1) * 255 / 2).
Proof.
  intros H. unfold spec_pixel. f_equal.
  replace (Rmin (Rmax v (-1)) 1) with v; [lra|].
  unfold Rmin, Rmax. repeat (destruct (Rle_dec _ _)); lra.
Qed.

(** X6: the last two statements of [sample] are monotone and saturating:
    a larger state never gives a smaller pixel; every element at or below
    -1 becomes 0 and every element at or above 1 becomes 255; an element
    inside [-1, 1] becomes the integer part of [(x + 1) * 255 / 2], cut and
    not rounded, so 0 becomes 127. *)
Theorem to_display_monotone_saturating (x y : tensor) :
  (Forall2 (Forall2 Rle) x y ->
   Forall2 (Forall2 Z.le) (to_display x) (to_display y)) /\
  (Forall (Forall (fun v => v <= -1)) x ->
   to_display x = map (map (fun _ => 0%Z)) x) /\
  (Forall (Forall (fun v => 1 <= v)) x ->
   to_display x = map (map (fun _ => 255%Z)) x) /\
  (Forall (Forall (fun v => -1 <= v <= 1)) x ->
   to_display x = map (map (fun v => Int_part ((v + 1) * 255 / 2))) x) /\
  to_display [[0]] = [[127%Z]].
Proof.
  rewrite !to_display_spec.
  split; [|split; [|split; [|split]]].
  - intros H. induction H as [|xr yr x y Hr _ IH]; simpl; constructor;
      [|exact IH].
    induction Hr as [|u v xr yr Huv _ IHr]; simpl; constructor;
      [apply spec_pixel_monotone; exact Huv | exact IHr].
  - intros H. apply map_ext_in. intros row Hrow.
    rewrite Forall_forall in H. specialize (H row Hrow).
    apply map_ext_in. intros v Hv.
    rewrite Forall_forall in H. apply spec_pixel_low. apply H. exact Hv.
  - intros H. apply map_ext_in. intros row Hrow.
    rewrite Forall_forall in H. specialize (H row Hrow).
    apply map_ext_in. intros v Hv.
    rewrite Forall_forall in H. apply spec_pixel_high. apply H. exact Hv.
  - intros H. apply map_ext_in. intros row Hrow.
    rewrite Forall_forall in H. specialize (H row Hrow).
    apply map_ext_in. intros v Hv.
    rewrite Forall_forall in H. apply spec_pixel_inside. apply H. exact Hv.
  - simpl. do 2 f_equal. rewrite spec_pixel_inside by lra.
    symmetry. apply Int_part_spec. lra.
Qed.

Lemma to_display_monotone_saturating_witness :
  Forall2 (Forall2 Z.le) (to_display [[-2; 0]]) (to_display [[0; 3]]) /\
  to_display [[1; 3]] = [[255%Z; 255%Z]].
Proof.
  split.
  - apply (proj1 (to_display_monotone_saturating [[-2; 0]] [[0; 3]])).
    repeat constructor; lra.
  - apply (proj1 (proj2 (proj2 (to_display_monotone_saturating [[1; 3]] [])))).
    repeat constructor; lra.
Defined.

(** ** More on the schedule *)





(** ** What [sample] reads of the schedule *)

Lemma index_select_agree (a a' : vec) (i : Z) (n : nat) :
  length a = length a' ->
  (forall k, (1 <= k)%nat -> nth k a 0 = nth k a' 0) ->
  (1 <= i)%Z ->
  index_select a (repeat i n) = index_select a' (repeat i n).
Proof.
  intros Hl Hn Hi. unfold index_select. rewrite Hl. f_equal.
  apply map_ext_in. intros j Hj. apply repeat_spec in Hj. subst j.
  destruct ((- Z.of_nat (length a') <=? i) && (i <? Z.of_nat (length a')))%Z;
    [|reflexivity].
  destruct (Z.ltb_spec i 0); [lia|].
  f_equal. apply Hn. lia.
Qed.

Lemma nth_replace_first (v : R) (a : vec) (k : nat) :
  (1 <= k)%nat -> nth k (replace_first v a) 0 = nth k a 0.
Proof.
  intros Hk. destruct a as [|u a]; [reflexivity|].
  destruct k as [|k]; [lia | reflexivity].
Qed.

Lemma length_replace_first (v : R) (a : vec) :
  length (replace_first v a) = length a.
Proof. destruct a; reflexivity. Qed.

Lemma with_first_entries_agree (v : R) (d : Diffusion) :
  agree_after_first d (with_first_entries v d).
Proof.
  unfold agree_after_first, with_first_entries. simpl.
  rewrite !length_replace_first.
  repeat split; rewrite nth_replace_first by assumption; reflexivity.
Qed.

Section ScheduleReads.
Context `{ES : EntropySource} `{P : Predictor}.

Lemma sample_step_around (d' : Diffusion) (n : nat) (i : Z) (x : tensor)
      (w : world) :
  agree_after_first (self w) d' -> (1 <= i)%Z ->
  sample_step n i x (with_self d' w) = around d' (sample_step n i x w).
Proof.
  intros (_ & _ & Lb & La & Lh & Hn) Hi.
  unfold sample_step, bind, get_self, model_call, lift. simpl.
  destruct (forward (training w) x (repeat i n)) as [pn|e]; [|reflexivity].
  simpl.
  rewrite <- (index_select_agree (alpha (self w)) (alpha d') i n La
                (fun k Hk => proj1 (proj2 (Hn k Hk))) Hi).
  destruct (index_select (alpha (self w)) (repeat i n)); [|reflexivity].
  rewrite <- (index_select_agree (alpha_hat (self w)) (alpha_hat d') i n Lh
                (fun k Hk => proj2 (proj2 (Hn k Hk))) Hi).
  destruct (index_select (alpha_hat (self w)) (repeat i n)); [|reflexivity].
  rewrite <- (index_select_agree (beta (self w)) (beta d') i n Lb
                (fun k Hk => proj1 (Hn k Hk)) Hi).
  destruct (index_select (beta (self w)) (repeat i n)); [|reflexivity].
  destruct (1 <? i)%Z.
  - unfold randn_like, randn. simpl.
    destruct (draw_samples (shape x) (rng w)) as [z g'].
    destruct (reverse_update _ _ _ _ _ _); reflexivity.
  - unfold ret.
    destruct (reverse_update _ _ _ _ _ _); reflexivity.
Qed.

Lemma for_each_around (d' : Diffusion) (n : nat) (l : list Z) :
  Forall (fun i => 1 <= i)%Z l ->
  forall (x : tensor) (w : world),
    agree_after_first (self w) d' ->
    for_each l (sample_step n) x (with_self d' w)
    = around d' (for_each l (sample_step n) x w).
Proof.
  induction 1 as [|i l Hi _ IH]; intros x w Hag; [reflexivity|].
  simpl for_each. unfold bind.
  rewrite (sample_step_around d' n i x w Hag Hi).
  destruct (sample_step n i x w) as [[x1 w1]|e] eqn:Hs; [|reflexivity].
  simpl around. apply IH.
  apply sample_step_inv in Hs. destruct Hs as (Hs & _). rewrite Hs. exact Hag.
Qed.

End ScheduleReads.

(** X10: [sample] never reads entry 0 of [beta], [alpha] or [alpha_hat]:
    run on an object that differs from the current one only in entry 0 of
    these three tensors, it does exactly the same, that is it returns the
    same images, leaves the same generator state, mode and trace, or raises
    the same exception. *)
Theorem sample_ignores_first_entry
        `{ES : EntropySource} `{P : Predictor}
        (d' : Diffusion) (w : world) (n : nat) :
  agree_after_first (self w) d' ->
  sample n (with_self d' w) = around d' (sample n w).
Proof.
  intros Hag. pose proof Hag as (HT & HS & _).
  rewrite !sample_unfold.
  assert (Hstart : sample_start n (with_self d' w)
                   = (fst (sample_start n w),
                      with_self d' (snd (sample_start n w)))).
  { unfold sample_start. simpl. rewrite <- HS. reflexivity. }
  rewrite Hstart. cbn [fst snd].
  destruct (sample_start_facts n w) as (_ & Hself & _).
  unfold sample_loop, bind, get_self.
  change (self (with_self d' (snd (sample_start n w)))) with d'.
  rewrite Hself, <- HT.
  rewrite for_each_around.
  - destruct (for_each _ _ _ (snd (sample_start n w))) as [[x w2]|e];
      reflexivity.
  - eapply Forall_impl; [|apply reversed_range_bounds]. simpl. intros; lia.
  - rewrite Hself. exact Hag.
Qed.

Lemma sample_ignores_first_entry_witness :
  sample (ES := zero_source) (P := echo_model) 1
         (demo_world (with_first_entries 7 (built 3 (1/10) (2/10) 1)) true)
  = around (with_first_entries 7 (built 3 (1/10) (2/10) 1))
           (sample (ES := zero_source) (P := echo_model) 1
                   (demo_world (built 3 (1/10) (2/10) 1) true)).
Proof.
  apply (sample_ignores_first_entry
           (ES := zero_source) (P := echo_model)
           (with_first_entries 7 (built 3 (1/10) (2/10) 1))
           (demo_world (built 3 (1/10) (2/10) 1) true) 1).
  apply with_first_entries_agree.
Defined.

(** ** The exceptions of [sample] *)







Section SampleExceptions.
Context `{ES : EntropySource} `{P : Predictor}.



End SampleExceptions.



(** ** The training step after [sample] *)

Section TrainingStep.
Context `{ES : EntropySource} `{P : Predictor}.

Lemma training_inputs_inv (images : tensor) (w w' : world)
      (r : list Z * (tensor * tensor)) :
  training_inputs images w = Ok (r, w') ->
  self w' = self w /\ training w' = training w /\
  trace w' = trace w ++ [Randint 1 (noise_steps (self w)) (length images);
                         Randn (shape images)].
Proof.
  unfold training_inputs, bind at 1.
  destruct (sample_timesteps (length images) w) as [[t w1]|] eqn:Ht;
    [|discriminate].
  unfold bind at 1.
  destruct (noise_images images t w1) as [[r1 w2]|] eqn:Hn; [|discriminate].
  unfold ret. intros H. injection H as <- <-.
  apply noise_images_inv in Hn. destruct Hn as (Hs2 & Hm2 & Ht2 & _).
  pose proof (sample_timesteps_inv _ _ _ _ Ht) as (Hs1 & Hm1).
  assert (Ht1 : trace w1 = trace w
                           ++ [Randint 1 (noise_steps (self w)) (length images)]).
  { unfold sample_timesteps, bind, get_self, randint in Ht.
    destruct (1 <? noise_steps (self w))%Z; [|discriminate].
    destruct (draw_ints _ _ _ _). injection Ht as <- <-. reflexivity. }
  repeat split; try congruence.
  rewrite Ht2, Ht1, <- app_assoc. reflexivity.
Qed.

Lemma training_forward_inv (images : tensor) (w w' : world)
      (r : tensor * tensor) :
  training_forward images w = Ok (r, w') ->
  training w' = training w /\
  exists x_t t,
    trace w' = trace w ++ [Randint 1 (noise_steps (self w)) (length images);
                           Randn (shape images);
                           Forward (training w) x_t t].
Proof.
  unfold training_forward, bind at 1.
  destruct (training_inputs images w) as [[ti w1]|] eqn:Hi; [|discriminate].
  apply training_inputs_inv in Hi. destruct Hi as (_ & Hm & Ht).
  unfold bind, model_call, ret.
  destruct (forward (training w1) (fst (snd ti)) (fst ti)); [|discriminate].
  intros H. injection H as <- <-. simpl.
  split; [exact Hm|].
  exists (fst (snd ti)), (fst ti).
  rewrite Ht, Hm, <- app_assoc. reflexivity.
Qed.

End TrainingStep.

(** X12: in [train], the training step that follows the call of [sample]
    at the end of an epoch makes its forward pass in training mode,
    whatever the mode of the model before [sample]: the forward passes of
    [sample] run in evaluation mode, then the mode is training again. *)
Theorem training_forward_after_sample
        `{ES : EntropySource} `{P : Predictor}
        (w w' : world) (n : nat) (images : tensor) (r : tensor * tensor) :
  bind (sample n) (fun _ => training_forward images) w = Ok (r, w') ->
  training w' = true /\
  exists mid x_t t,
    trace w' = trace w ++ [Eval] ++ mid
                       ++ [Train;
                           Randint 1 (noise_steps (self w)) (length images);
                           Randn (shape images);
                           Forward true x_t t] /\
    Forall (in_loop false) mid.
Proof.
  unfold bind at 1.
  destruct (sample n w) as [[imgs w1]|] eqn:Hs; [|discriminate].
  apply sample_inv in Hs.
  destruct Hs as (Hself & Hmode & mid & xs & Htr & Hall & _).
  intros H. apply training_forward_inv in H.
  destruct H as (Hm & x_t & t & Ht).
  split; [congruence|].
  exists mid, x_t, t. split; [|exact Hall].
  rewrite Ht, Htr, Hself, Hmode, <- !app_assoc. reflexivity.
Qed.

Lemma training_forward_after_sample_witness :
  exists r w',
    bind (sample (ES := zero_source) (P := echo_model) 1)
         (fun _ => training_forward (ES := zero_source) (P := echo_model)
                                    [[1; 2]])
         (demo_world (built 3 (1/10) (2/10) 1) false) = Ok (r, w')
    /\ training w' = true.
Proof.
  eexists. eexists. split.
  - reflexivity.
  - eapply (fun r w' Hrun =>
              proj1 (training_forward_after_sample
                       (ES := zero_source) (P := echo_model)
                       (demo_world (built 3 (1/10) (2/10) 1) false)
                       w' 1 [[1; 2]] r Hrun)).
    reflexivity.
Defined.

(** ** A model that predicts no noise *)




